(** * Cuttle: the async-service / synchronous-host bridge

    A shallow embedding of the three simulated bridges of the repository:

    - [Bridge]: [test_simulated_bridge] and its standalone copy
      ([blender_test_addon/__init__.py], lines 79-148 and 341-407), with
      the thread body [simulated_async_service] and the host functions
      [send_message] and [try_recv_response];
    - [Modal]: the operator [CUTTLE_OT_simulate_modal] (lines 178-243),
      its timer callback [modal], [execute] and the thread body [service];
    - [Cli]: the modal-pattern test of [test_blender_cli.py]
      (lines 90-127), whose [service] runs [for i in range(3)].

    A [queue.Queue] is a list whose head is the next item handed out.
    Python code that touches the queues or raises is written in a small
    state-and-exception monad; a thread is scheduled one loop iteration
    at a time, interleaved with the host's calls. *)

From Stdlib Require Import String Ascii List ZArith Lia Bool DecimalString.
Import ListNotations.
Open Scope string_scope.

(** ** Python strings *)

Module Py.

(** [s.startswith(prefix)] *)
Definition startswith (s prefix : string) : bool := String.prefix prefix s.

(** [s.split(sep)] for a one-character separator: every occurrence cuts,
    the result always has at least one element. *)
Fixpoint split (s : string) (sep : ascii) : list string :=
  match s with
  | EmptyString => [EmptyString]
  | String c rest =>
      if Ascii.eqb c sep then EmptyString :: split rest sep
      else match split rest sep with
           | [] => [String c EmptyString]
           | w :: ws => String c w :: ws
           end
  end.

(** [str(n)] of an integer, as an f-string prints it. *)
Definition str (n : Z) : string := NilZero.string_of_int (Z.to_int n).

End Py.

(** ** Exceptions and effects *)

Inductive exn : Type :=
| Empty           (* queue.Empty: nothing arrived (in time) *)
| IndexError      (* list subscript out of range *)
| AttributeError  (* method call on None *)
| OutputError.    (* print on a stream that does not take the text *)

Inductive outcome (A : Type) : Type :=
| Return (a : A)
| Raise (e : exn).
Arguments Return {A} a.
Arguments Raise {A} e.

(** A computation over a store [S]: the store survives an exception, as
    the effects of a Python statement do. *)
Definition M (S A : Type) : Type := S -> outcome A * S.

Definition ret {S A} (a : A) : M S A := fun s => (Return a, s).

Definition raise {S A} (e : exn) : M S A := fun s => (Raise e, s).

Definition bind {S A B} (c : M S A) (k : A -> M S B) : M S B :=
  fun s => match c s with
           | (Return a, s') => k a s'
           | (Raise e, s') => (Raise e, s')
           end.

(** [try: body / except: handler] (a bare except catches everything). *)
Definition try_except {S A} (body : M S A) (handler : M S A) : M S A :=
  fun s => match body s with
           | (Return a, s') => (Return a, s')
           | (Raise _, s') => handler s'
           end.

(** [try: body / except queue.Empty: handler] *)
Definition try_except_Empty {S A} (body : M S A) (handler : M S A) : M S A :=
  fun s => match body s with
           | (Return a, s') => (Return a, s')
           | (Raise Empty, s') => handler s'
           | (Raise e, s') => (Raise e, s')
           end.

Declare Scope py_scope.
Delimit Scope py_scope with py.
Notation "x <- c ;; k" := (bind c (fun x => k))
  (at level 61, c at next level, right associativity) : py_scope.
Notation "c ;; k" := (bind c (fun _ => k))
  (at level 61, right associativity) : py_scope.
Open Scope py_scope.

(** [l[i]] *)
Definition subscript {S} (l : list string) (i : nat) : M S string :=
  match nth_error l i with
  | Some x => ret x
  | None => raise IndexError
  end.

(** How one pass through a loop body ends. *)
Inductive flow : Type := Continue | Break.

(** ** Scheduling a service thread against its host

    The host puts commands and takes responses without blocking; the
    thread is given one loop iteration at a time.  Every [queue.Queue]
    operation is atomic (the queue locks itself), and an iteration's
    [get] and [put] touch opposite ends of different queues than the host
    does, so an iteration is scheduled as one step. *)

Inductive action : Type :=
| Send (msg : string)   (* the host enqueues a command *)
| TryRecv               (* the host polls for a response *)
| Service.              (* the thread runs one iteration *)

Section Scheduler.

Context {St : Type}.
Variable put : string -> St -> St.
Variable take : St -> option string * St.
Variable svc : St -> St.

(** One action; a [TryRecv] shows the host what it returned. *)
Definition step (a : action) (w : St) : St * list (option string) :=
  match a with
  | Send msg => (put msg w, [])
  | TryRecv => let (r, w') := take w in (w', [r])
  | Service => (svc w, [])
  end.

Fixpoint exec (sched : list action) (w : St) : St * list (option string) :=
  match sched with
  | [] => (w, [])
  | a :: rest =>
      let (w1, o1) := step a w in
      let (w2, o2) := exec rest w1 in
      (w2, (o1 ++ o2)%list)
  end.

End Scheduler.

(** The commands a schedule sends, in order. *)
Definition sends (sched : list action) : list string :=
  flat_map (fun a => match a with Send m => [m] | _ => [] end) sched.

(** The responses among what the host's polls returned, in order. *)
Definition somes {A} (obs : list (option A)) : list A :=
  flat_map (fun o => match o with Some r => [r] | None => [] end) obs.

(** ** [test_simulated_bridge]: exact-match service with an unknown echo *)

Module Bridge.

(** The two local queues [to_service] and [from_service]. *)
Record queues : Type := {
  to_service : list string;
  from_service : list string
}.

(** [to_service.get(timeout=1)]: the next command, or [queue.Empty]
    when none arrives within the timeout. *)
Definition to_service_get : M queues string :=
  fun q => match to_service q with
           | [] => (Raise Empty, q)
           | message :: rest =>
               (Return message,
                {| to_service := rest; from_service := from_service q |})
           end.

Definition to_service_put (msg : string) : M queues unit :=
  fun q => (Return tt,
            {| to_service := (to_service q ++ [msg])%list;
               from_service := from_service q |}).

Definition from_service_put (response : string) : M queues unit :=
  fun q => (Return tt,
            {| to_service := to_service q;
               from_service := (from_service q ++ [response])%list |}).

Definition from_service_get_nowait : M queues string :=
  fun q => match from_service q with
           | [] => (Raise Empty, q)
           | response :: rest =>
               (Return response,
                {| to_service := to_service q; from_service := rest |})
           end.

(** One pass through the [while True] body of [simulated_async_service]
    (the [print] is dropped: it touches no queue; [Printing] below
    keeps it, with what it can raise). *)
Definition simulated_async_service_body : M queues flow :=
  try_except_Empty
    (message <- to_service_get ;;
     r <- (if message =? "ping" then ret (inl "pong")
           else if message =? "stop" then
             (from_service_put "stopped" ;; ret (inr Break))
           else ret (inl ("unknown: " ++ message))) ;;
     match r with
     | inl response => from_service_put response ;; ret Continue
     | inr f => ret f
     end)
    (ret Continue).

Definition send_message (msg : string) : M queues unit :=
  to_service_put msg.

Definition try_recv_response : M queues (option string) :=
  try_except_Empty
    (response <- from_service_get_nowait ;; ret (Some response))
    (ret None).

(** The queues together with the service thread: [alive] while the
    thread is inside its loop. *)
Record world : Type := {
  chan : queues;
  alive : bool
}.

(** The thread gets one loop iteration; leaving the loop by [break] or
    by an exception that nothing catches ends the thread. *)
Definition service_step (w : world) : world :=
  if alive w then
    match simulated_async_service_body (chan w) with
    | (Return Continue, q) => {| chan := q; alive := true |}
    | (Return Break, q) => {| chan := q; alive := false |}
    | (Raise _, q) => {| chan := q; alive := false |}
    end
  else w.

(** The host's two calls, as steps of the whole. *)
Definition host_send (msg : string) (w : world) : world :=
  {| chan := snd (send_message msg (chan w)); alive := alive w |}.

Definition host_try_recv (w : world) : option string * world :=
  match try_recv_response (chan w) with
  | (Return r, q) => (r, {| chan := q; alive := alive w |})
  | (Raise _, q) => (None, {| chan := q; alive := alive w |})
  end.

Definition run := exec host_send host_try_recv service_step.

(** Both queues new, the thread just started. *)
Definition fresh : world :=
  {| chan := {| to_service := []; from_service := [] |}; alive := true |}.

(** [response != expected], where [response] may be [None]. *)
Definition differs (response : option string) (expected : string) : bool :=
  match response with
  | Some r => negb (r =? expected)
  | None => true
  end.

(** f-string rendering of a response that may be [None]. *)
Definition show (response : option string) : string :=
  match response with Some r => r | None => "None" end.

(** The test itself (lines 132-148): the thread gets [k0] iterations
    before the first send, [k1] during the first [time.sleep(0.1)] and
    [k2] during the second.  [inl text] is the raised [Exception]. *)
Definition test_simulated_bridge (k0 k1 k2 : nat) : string + unit :=
  let w := fst (run (repeat Service k0) fresh) in
  let w := host_send "ping" w in
  let w := fst (run (repeat Service k1) w) in
  let (response, w) := host_try_recv w in
  if differs response "pong" then
    inl ("Expected 'pong', got '" ++ show response ++ "'")
  else
    let w := host_send "stop" w in
    let w := fst (run (repeat Service k2) w) in
    let (response, w) := host_try_recv w in
    if differs response "stopped" then
      inl ("Expected 'stopped', got '" ++ show response ++ "'")
    else inr tt.

(** The response to each command, tabulated; [service_step] is shown
    below to push exactly this. *)
Definition reply (message : string) : string :=
  if message =? "ping" then "pong"
  else if message =? "stop" then "stopped"
  else "unknown: " ++ message.

Definition inq (w : world) : list string := to_service (chan w).
Definition outq (w : world) : list string := from_service (chan w).

End Bridge.

(** ** [CUTTLE_OT_simulate_modal]: the timer-driven operator *)

Module Modal.

(** The attributes of the operator instance ([self]); [report]s are
    kept in the order they were made. *)
Record operator : Type := {
  _timer : option unit;
  _message_queue : option (list string);
  _response_queue : option (list string);
  _counter : Z;
  reports : list string
}.

(** The class attributes, before [execute] has run. *)
Definition initial : operator :=
  {| _timer := None; _message_queue := None; _response_queue := None;
     _counter := 0; reports := [] |}.

Record event : Type := { type : string }.

Inductive status : Type :=
| FINISHED | PASS_THROUGH | RUNNING_MODAL | CANCELLED.

(** An object is true unless it is [None] ([queue.Queue] defines
    neither [__bool__] nor [__len__]). *)
Definition truthy {A} (o : option A) : bool :=
  match o with Some _ => true | None => false end.

Definition attr {A} (f : operator -> A) : M operator A :=
  fun s => (Return (f s), s).

Definition set_message_queue (q : option (list string)) : M operator unit :=
  fun s => (Return tt,
            {| _timer := _timer s; _message_queue := q;
               _response_queue := _response_queue s;
               _counter := _counter s; reports := reports s |}).

Definition set_response_queue (q : option (list string)) : M operator unit :=
  fun s => (Return tt,
            {| _timer := _timer s; _message_queue := _message_queue s;
               _response_queue := q;
               _counter := _counter s; reports := reports s |}).

Definition set_counter (c : Z) : M operator unit :=
  fun s => (Return tt,
            {| _timer := _timer s; _message_queue := _message_queue s;
               _response_queue := _response_queue s;
               _counter := c; reports := reports s |}).

Definition set_timer (t : option unit) : M operator unit :=
  fun s => (Return tt,
            {| _timer := t; _message_queue := _message_queue s;
               _response_queue := _response_queue s;
               _counter := _counter s; reports := reports s |}).

(** [self.report({"INFO"}, text)] *)
Definition report (text : string) : M operator unit :=
  fun s => (Return tt,
            {| _timer := _timer s; _message_queue := _message_queue s;
               _response_queue := _response_queue s;
               _counter := _counter s;
               reports := (reports s ++ [text])%list |}).

(** [self._message_queue.get(timeout=1)] *)
Definition message_queue_get : M operator string :=
  q <- attr _message_queue ;;
  match q with
  | None => raise AttributeError
  | Some [] => raise Empty
  | Some (msg :: rest) => set_message_queue (Some rest) ;; ret msg
  end.

(** [self._message_queue.put(msg)] *)
Definition message_queue_put (msg : string) : M operator unit :=
  q <- attr _message_queue ;;
  match q with
  | None => raise AttributeError
  | Some l => set_message_queue (Some (l ++ [msg])%list)
  end.

(** [self._response_queue.put(response)] *)
Definition response_queue_put (response : string) : M operator unit :=
  q <- attr _response_queue ;;
  match q with
  | None => raise AttributeError
  | Some l => set_response_queue (Some (l ++ [response])%list)
  end.

(** [self._response_queue.empty()] *)
Definition response_queue_empty : M operator bool :=
  q <- attr _response_queue ;;
  match q with
  | None => raise AttributeError
  | Some [] => ret true
  | Some (_ :: _) => ret false
  end.

(** [self._response_queue.get_nowait()] *)
Definition response_queue_get_nowait : M operator string :=
  q <- attr _response_queue ;;
  match q with
  | None => raise AttributeError
  | Some [] => raise Empty
  | Some (response :: rest) => set_response_queue (Some rest) ;; ret response
  end.

(** [modal(self, context, event)] *)
Definition modal (event : event) : M operator status :=
  if type event =? "TIMER" then
    rq <- attr _response_queue ;;
    pending <- (if truthy rq
                then (e <- response_queue_empty ;; ret (negb e))
                else ret false) ;;
    (if pending : bool then
       try_except
         (response <- response_queue_get_nowait ;;
          report ("Received: " ++ response))
         (ret tt)
     else ret tt) ;;
    c <- attr _counter ;;
    set_counter (c + 1) ;;
    c <- attr _counter ;;
    (if (c mod 10 =? 0)%Z then
       mq <- attr _message_queue ;;
       if truthy mq then
         message_queue_put ("ping_" ++ Py.str (c / 10)) ;;
         report ("Sent: ping_" ++ Py.str (c / 10))
       else ret tt
     else ret tt) ;;
    c <- attr _counter ;;
    if (c >=? 50)%Z then
      mq <- attr _message_queue ;;
      (if truthy mq then message_queue_put "stop" else ret tt) ;;
      ret FINISHED
    else ret PASS_THROUGH
  else ret PASS_THROUGH.

(** What [service] does with a command it took off the queue (the
    [if]/[elif] inside its [try]).  Looking up [put] on a queue that
    is [None] fails before the argument is evaluated. *)
Definition service_dispatch (msg : string) : M operator flow :=
  if Py.startswith msg "ping" then
    rq <- attr _response_queue ;;
    (if truthy rq then ret tt else raise AttributeError) ;;
    suffix <- subscript (Py.split msg "_") 1 ;;
    response_queue_put ("pong_" ++ suffix) ;;
    ret Continue
  else if msg =? "stop" then
    response_queue_put "stopped" ;;
    ret Break
  else ret Continue.

(** One pass through the [while True] body of [service]: the bare
    [except] turns every exception, the timeout included, into
    [continue]. *)
Definition service_body : M operator flow :=
  try_except
    (msg <- message_queue_get ;; service_dispatch msg)
    (ret Continue).

(** [execute(self, context)], up to the thread start, which [start]
    below does. *)
Definition execute : M operator status :=
  set_message_queue (Some []) ;;
  set_response_queue (Some []) ;;
  set_counter 0 ;;
  set_timer (Some tt) ;;
  report "Started modal operator simulation" ;;
  ret RUNNING_MODAL.

(** The operator, its service thread, and whether the window manager
    still holds the operator as a modal handler. *)
Record world : Type := {
  self : operator;
  alive : bool;
  handler : bool
}.

Definition service_step (w : world) : world :=
  if alive w then
    match service_body (self w) with
    | (Return Continue, s) =>
        {| self := s; alive := true; handler := handler w |}
    | (Return Break, s) =>
        {| self := s; alive := false; handler := handler w |}
    | (Raise _, s) =>
        {| self := s; alive := false; handler := handler w |}
    end
  else w.

(** The state [execute] leaves behind: thread started, handler added. *)
Definition start : world :=
  match execute initial with
  | (Return RUNNING_MODAL, s) =>
      {| self := s; alive := true; handler := true |}
  | (_, s) => {| self := s; alive := true; handler := false |}
  end.

(** The window manager hands an event to the operator for as long as
    it is a modal handler; [FINISHED] and [CANCELLED] (or an exception)
    remove it.  This is the host's side of the contract, not code of
    the repository. *)
Definition deliver (ev : event) (w : world) : world * list status :=
  if handler w then
    match modal ev (self w) with
    | (Return PASS_THROUGH, s) =>
        ({| self := s; alive := alive w; handler := true |}, [PASS_THROUGH])
    | (Return RUNNING_MODAL, s) =>
        ({| self := s; alive := alive w; handler := true |}, [RUNNING_MODAL])
    | (Return r, s) =>
        ({| self := s; alive := alive w; handler := false |}, [r])
    | (Raise _, s) =>
        ({| self := s; alive := alive w; handler := false |}, [])
    end
  else (w, []).

Inductive input : Type :=
| Event (ev : event)
| Thread.

Fixpoint drive (ins : list input) (w : world) : world * list status :=
  match ins with
  | [] => (w, [])
  | Event ev :: rest =>
      let (w1, r1) := deliver ev w in
      let (w2, r2) := drive rest w1 in
      (w2, (r1 ++ r2)%list)
  | Thread :: rest => drive rest (service_step w)
  end.

Definition TIMER : event := {| type := "TIMER" |}.

(** Any producer and consumer on the operator's two queues, to put the
    service thread in front of arbitrary commands. *)
Definition host_send (msg : string) (w : world) : world :=
  {| self := snd (message_queue_put msg (self w));
     alive := alive w; handler := handler w |}.

Definition host_try_recv (w : world) : option string * world :=
  match try_except
          (response <- response_queue_get_nowait ;; ret (Some response))
          (ret None) (self w) with
  | (Return r, s) =>
      (r, {| self := s; alive := alive w; handler := handler w |})
  | (Raise _, s) =>
      (None, {| self := s; alive := alive w; handler := handler w |})
  end.

Definition run := exec host_send host_try_recv service_step.

Definition inq (w : world) : list string :=
  match _message_queue (self w) with Some q => q | None => [] end.
Definition outq (w : world) : list string :=
  match _response_queue (self w) with Some q => q | None => [] end.

(** Both queues exist, as they do from [execute] on. *)
Definition wired (w : world) : Prop :=
  truthy (_message_queue (self w)) = true /\
  truthy (_response_queue (self w)) = true.

(** What holds of the poll loop along every run from [start]: the
    handler is installed exactly while the counter is below 50, no
    ["stopped"] has been reported, and while the handler is installed
    the thread lives, no ["stop"] is queued and no ["stopped"] waits. *)
Definition unacknowledged (w : world) : Prop :=
  wired w /\
  handler w = (_counter (self w) <? 50)%Z /\
  ~ In "Received: stopped" (reports (self w)) /\
  (handler w = true ->
   alive w = true /\ ~ In "stop" (inq w) /\ ~ In "stopped" (outq w)).

End Modal.

(** ** [test_cuttle_in_blender]: the modal pattern with a bounded service *)

Module Cli.

(** The two local queues [message_queue] and [response_queue]. *)
Record queues : Type := {
  message_queue : list string;
  response_queue : list string
}.

Definition message_queue_get : M queues string :=
  fun q => match message_queue q with
           | [] => (Raise Empty, q)
           | msg :: rest =>
               (Return msg,
                {| message_queue := rest;
                   response_queue := response_queue q |})
           end.

Definition message_queue_put (msg : string) : M queues unit :=
  fun q => (Return tt,
            {| message_queue := (message_queue q ++ [msg])%list;
               response_queue := response_queue q |}).

Definition response_queue_put (response : string) : M queues unit :=
  fun q => (Return tt,
            {| message_queue := message_queue q;
               response_queue := (response_queue q ++ [response])%list |}).

Definition response_queue_get_nowait : M queues string :=
  fun q => match response_queue q with
           | [] => (Raise Empty, q)
           | response :: rest =>
               (Return response,
                {| message_queue := message_queue q;
                   response_queue := rest |})
           end.

(** What [service] does with a command it took off the queue. *)
Definition service_dispatch (msg : string) : M queues flow :=
  if Py.startswith msg "ping" then
    suffix <- subscript (Py.split msg "_") 1 ;;
    response_queue_put ("pong_" ++ suffix) ;;
    ret Continue
  else if msg =? "stop" then
    response_queue_put "stopped" ;;
    ret Break
  else ret Continue.

(** One pass through the body of [for i in range(3)] in [service]. *)
Definition service_body : M queues flow :=
  try_except
    (msg <- message_queue_get ;; service_dispatch msg)
    (ret Continue).

(** The queues and how many iterations of [range(3)] the thread has
    left; at [0] the thread is over. *)
Record world : Type := {
  chan : queues;
  remaining : nat
}.

Definition service_step (w : world) : world :=
  match remaining w with
  | O => w
  | S k =>
      match service_body (chan w) with
      | (Return Continue, q) => {| chan := q; remaining := k |}
      | (Return Break, q) => {| chan := q; remaining := 0 |}
      | (Raise _, q) => {| chan := q; remaining := 0 |}
      end
  end.

Definition host_send (msg : string) (w : world) : world :=
  {| chan := snd (message_queue_put msg (chan w));
     remaining := remaining w |}.

Definition host_try_recv (w : world) : option string * world :=
  match try_except
          (response <- response_queue_get_nowait ;; ret (Some response))
          (ret None) (chan w) with
  | (Return r, q) => (r, {| chan := q; remaining := remaining w |})
  | (Raise _, q) => (None, {| chan := q; remaining := remaining w |})
  end.

Definition run := exec host_send host_try_recv service_step.

Definition fresh : world :=
  {| chan := {| message_queue := []; response_queue := [] |};
     remaining := 3 |}.

(** [while not response_queue.empty():
       responses.append(response_queue.get_nowait())] *)
Fixpoint drain (q : list string) (responses : list string) : list string :=
  match q with
  | [] => responses
  | response :: rest => drain rest (responses ++ [response])%list
  end.

(** The test (lines 106-127): the thread is started and gets [k0]
    iterations before the first put (each of them a [get] that waited
    out its full second), then the three puts, then [k] iterations
    during [time.sleep(0.1)], then the comparison.  These are the runs
    in which the thread takes no turn between the puts or during the
    final loop; [run] has all the others. *)
Definition test_modal_pattern (k0 k : nat) : bool :=
  let w := fst (run (repeat Service k0) fresh) in
  let w := host_send "ping_1" w in
  let w := host_send "ping_2" w in
  let w := host_send "stop" w in
  let w := fst (run (repeat Service k) w) in
  let responses := drain (response_queue (chan w)) [] in
  if list_eq_dec string_dec responses ["pong_1"; "pong_2"; "stopped"]
  then true else false.

Definition inq (w : world) : list string := message_queue (chan w).
Definition outq (w : world) : list string := response_queue (chan w).
Definition live (w : world) : bool := (0 <? remaining w)%nat.

End Cli.

(** ** The protocol in tabular form *)

(** The responses of the prefix-matching [service] (the operator's and
    the CLI test's) to each command: at most one. *)
Definition pong_reply (msg : string) : list string :=
  if Py.startswith msg "ping" then
    match nth_error (Py.split msg "_") 1 with
    | Some suffix => ["pong_" ++ suffix]
    | None => []
    end
  else if msg =? "stop" then ["stopped"]
  else [].

Definition is_stop (msg : string) : bool := msg =? "stop".

(** No command of [l] makes the service leave its loop. *)
Definition calm (stops : string -> bool) (l : list string) : Prop :=
  forall m, In m l -> stops m = false.

(** A state agrees with what was [sent] so far and what the host [got]
    so far: the commands consumed are a prefix of [sent], the responses
    are their replies in the same order, and nothing was consumed after
    a command that stops the service. *)
Definition history {St : Type} (inq outq : St -> list string)
    (live : St -> bool) (ok : St -> Prop)
    (reply : string -> list string) (stops : string -> bool)
    (sent got : list string) (s : St) : Prop :=
  ok s /\
  exists consumed,
    sent = (consumed ++ inq s)%list /\
    (got ++ outq s)%list = flat_map reply consumed /\
    calm stops (removelast consumed) /\
    (live s = true -> calm stops consumed).

(** A dead service died of the last command it consumed. *)
Definition verdict {St : Type} (inq : St -> list string)
    (live : St -> bool) (stops : string -> bool)
    (sent : list string) (s : St) : Prop :=
  live s = false ->
  exists pre m, sent = (pre ++ m :: inq s)%list /\ stops m = true.


(** ** More of the operator and of the scripts *)

(** [c in s] for a character [c]. *)
Fixpoint contains (s : string) (c : ascii) : bool :=
  match s with
  | EmptyString => false
  | String x rest => if Ascii.eqb x c then true else contains rest c
  end.

(** The thread's turns in a schedule. *)
Definition turns (sched : list action) : nat :=
  length (filter (fun a => match a with Service => true | _ => false end) sched).

(** The responses the poll loop has reported, in the order of the
    reports: the text after ["Received: "]. *)
Definition received (s : Modal.operator) : list string :=
  flat_map (fun text =>
              if String.prefix "Received: " text
              then [substring 10 (String.length text - 10) text]
              else [])
           (Modal.reports s).

(** What the poll loop has put on the message queue by the time its
    counter shows [c]: a ping for every full ten, and ["stop"] from 50. *)
Definition commands_sent (c : Z) : list string :=
  (map (fun k => ("ping_" ++ Py.str (Z.of_nat k))%string)
       (seq 1 (Z.to_nat (c / 10)))
     ++ (if (50 <=? c)%Z then ["stop"] else []))%list.

(** The [TIMER] events among the inputs of a run. *)
Definition ticks (ins : list Modal.input) : nat :=
  length (filter (fun i => match i with
                           | Modal.Event ev => Modal.type ev =? "TIMER"
                           | Modal.Thread => false
                           end) ins).

(** The poll loop and its thread agree along a run: the counter is
    within its fifty ticks, the handler is installed while it is below
    50, the commands the thread has consumed are a prefix of those the
    poll loop has sent, and the responses reported or still queued are
    the replies to them, in order. *)
Definition scenario (w : Modal.world) : Prop :=
  Modal.wired w /\
  (0 <= Modal._counter (Modal.self w) <= 50)%Z /\
  Modal.handler w = (Modal._counter (Modal.self w) <? 50)%Z /\
  exists consumed,
    commands_sent (Modal._counter (Modal.self w))
      = (consumed ++ Modal.inq w)%list /\
    (received (Modal.self w) ++ Modal.outq w)%list
      = flat_map pong_reply consumed.

(** *** [CUTTLE_OT_test_architecture] *)

Module Architecture.

Inductive level : Type := INFO | ERROR.

(** What [subprocess.run] hands back. *)
Record completed : Type := {
  returncode : Z;
  stdout : string;
  stderr : string
}.

(** [test_rust_core] (and its standalone copy): [run] is what the call
    of [subprocess.run] came to, [inl text] an exception it raised (a
    timeout, a missing [cargo]) with [text] its [str].  The result is
    [inl text] when the method raises. *)
Definition test_rust_core (run : string + completed) : string + unit :=
  match run with
  | inl e => inl e
  | inr result =>
      if negb (returncode result =? 0)%Z
      then inl ("Cargo test failed: " ++ stderr result)
      else inr tt
  end.

(** [execute]: the three tests in turn, each in its own [try]; the
    bridge test runs against the thread schedule [k0 k1 k2], and
    [logging] is what [test_file_logging] came to on the file system. *)
Definition execute (run : string + completed) (k0 k1 k2 : nat)
    (logging : string + unit) : Modal.status * list (level * string) :=
  let r := [(INFO, "Testing Cuttle architecture...")] in
  match test_rust_core run with
  | inl e =>
      (Modal.CANCELLED, (r ++ [(ERROR, ("FAIL: Rust core failed: " ++ e)%string)])%list)
  | inr _ =>
      let r := (r ++ [(INFO, "PASS: Rust core tests passed")])%list in
      match Bridge.test_simulated_bridge k0 k1 k2 with
      | inl e =>
          (Modal.CANCELLED,
           (r ++ [(ERROR, ("FAIL: Simulated bridge failed: " ++ e)%string)])%list)
      | inr _ =>
          let r :=
            (r ++ [(INFO, "PASS: Simulated bridge communication works")])%list
          in
          match logging with
          | inl e =>
              (Modal.CANCELLED,
               (r ++ [(ERROR, ("FAIL: File logging failed: " ++ e)%string)])%list)
          | inr _ =>
              let r := (r ++ [(INFO, "PASS: File logging works")])%list in
              (Modal.FINISHED,
               (r ++ [(INFO, "SUCCESS: All Cuttle architecture tests passed!")])%list)
          end
      end
  end.

Definition is_error (r : level * string) : bool :=
  match fst r with ERROR => true | INFO => false end.

End Architecture.

(** *** The [sys.path] prologues *)

Module SysPath.

(** [p in sys.path] *)
Definition mem (p : string) (path : list string) : bool :=
  existsb (String.eqb p) path.

(** [blender_test_addon/__init__.py], lines 19-21:
    [if str(addon_dir) not in sys.path: sys.path.append(str(addon_dir))] *)
Definition addon_prologue (addon_dir : string) (path : list string)
  : list string :=
  if negb (mem addon_dir path) then (path ++ [addon_dir])%list else path.

(** [test_blender_cli.py], lines 19-24: the addon directory, then the
    script directory, each put in front unless already there. *)
Definition cli_prologue (script_dir addon_dir : string) (path : list string)
  : list string :=
  let path := if negb (mem addon_dir path) then addon_dir :: path else path in
  if negb (mem script_dir path) then script_dir :: path else path.

End SysPath.

(** ** Waiting on a queue

    [queue.Queue.get] as the library documents it, together with the
    time the call takes, in milliseconds.  A call that finds an item
    returns it at once.  On an empty queue [get_nowait()] raises
    [queue.Empty] at once, while [get(timeout=t)] blocks: [next] is the
    next item a producer puts on this queue and the delay until then, if
    any, and the call returns that item when it comes in time and
    raises [queue.Empty] after the whole timeout otherwise. *)

Module Waiting.

Inductive mode : Type :=
| Nowait                 (* get_nowait() *)
| Timeout (ms : nat).    (* get(timeout=ms/1000) *)

Definition arrival : Type := option (nat * string).

(** The outcome, the items left, the time elapsed. *)
Definition get (how : mode) (next : arrival) (q : list string)
  : outcome string * list string * nat :=
  match q with
  | item :: rest => (Return item, rest, 0)
  | [] =>
      match how with
      | Nowait => (Raise Empty, [], 0)
      | Timeout ms =>
          match next with
          | Some (delay, item) =>
              if (delay <=? ms)%nat then (Return item, [], delay)
              else (Raise Empty, [], ms)
          | None => (Raise Empty, [], ms)
          end
      end
  end.

(** [try_recv_response] (lines 125-130 and 384-389), with its time. *)
Definition try_recv_response (next : arrival) (q : Bridge.queues)
  : outcome (option string) * Bridge.queues * nat :=
  match get Nowait next (Bridge.from_service q) with
  | (Return response, rest, dt) =>
      (Return (Some response),
       {| Bridge.to_service := Bridge.to_service q;
          Bridge.from_service := rest |}, dt)
  | (Raise Empty, rest, dt) =>
      (Return None,
       {| Bridge.to_service := Bridge.to_service q;
          Bridge.from_service := rest |}, dt)
  | (Raise e, rest, dt) =>
      (Raise e,
       {| Bridge.to_service := Bridge.to_service q;
          Bridge.from_service := rest |}, dt)
  end.

(** [to_service.get(timeout=1)] of the service (lines 97 and 356), with
    its time. *)
Definition to_service_get (next : arrival) (q : Bridge.queues)
  : outcome string * Bridge.queues * nat :=
  match get (Timeout 1000) next (Bridge.to_service q) with
  | (o, rest, dt) =>
      (o, {| Bridge.to_service := rest;
             Bridge.from_service := Bridge.from_service q |}, dt)
  end.

End Waiting.

(** ** [simulated_async_service] with its [print] *)

Module Printing.

(** [print(text)]: [stdout text] tells whether the stream takes the
    text; when it does not (an encoding the text does not fit, a closed
    stream), [print] raises. *)
Definition print {S : Type} (stdout : string -> bool) (text : string)
  : M S unit :=
  if stdout text then ret tt else raise OutputError.

(** One pass through the [while True] body of [simulated_async_service],
    lines 94-114 and 353-373, the [print] of line 98 included. *)
Definition simulated_async_service_body (stdout : string -> bool)
  : M Bridge.queues flow :=
  try_except_Empty
    (message <- Bridge.to_service_get ;;
     print stdout ("Service received: " ++ message) ;;
     r <- (if message =? "ping" then ret (inl "pong")
           else if message =? "stop" then
             (Bridge.from_service_put "stopped" ;; ret (inr Break))
           else ret (inl ("unknown: " ++ message))) ;;
     match r with
     | inl response => Bridge.from_service_put response ;; ret Continue
     | inr f => ret f
     end)
    (ret Continue).

(** A turn of the thread: an exception that leaves the body ends it. *)
Definition service_step (stdout : string -> bool) (w : Bridge.world)
  : Bridge.world :=
  if Bridge.alive w then
    match simulated_async_service_body stdout (Bridge.chan w) with
    | (Return Continue, q) => {| Bridge.chan := q; Bridge.alive := true |}
    | (Return Break, q) => {| Bridge.chan := q; Bridge.alive := false |}
    | (Raise _, q) => {| Bridge.chan := q; Bridge.alive := false |}
    end
  else w.

End Printing.

(** * Properties *)

Open Scope list_scope.

(** ** Runs of a service against any host

    What the three services share: a dead thread does nothing; a live one
    leaves the queues alone when no command waits, and otherwise takes the
    oldest command [m] and appends [reply m] to the responses, dying if
    [stops m]. *)

Section Protocol.

Context {St : Type}.
Variable put : string -> St -> St.
Variable take : St -> option string * St.
Variable svc : St -> St.
Variables inq outq : St -> list string.
Variable live : St -> bool.
Variable ok : St -> Prop.
Variable reply : string -> list string.
Variable stops : string -> bool.

Hypothesis put_spec : forall m s, ok s ->
  ok (put m s) /\ inq (put m s) = inq s ++ [m] /\
  outq (put m s) = outq s /\ live (put m s) = live s.

Hypothesis take_spec : forall s, ok s ->
  ok (snd (take s)) /\ inq (snd (take s)) = inq s /\
  live (snd (take s)) = live s /\
  match outq s with
  | [] => fst (take s) = None /\ outq (snd (take s)) = []
  | r :: rest => fst (take s) = Some r /\ outq (snd (take s)) = rest
  end.

Hypothesis svc_dead : forall s, live s = false -> svc s = s.

Hypothesis svc_live : forall s, ok s -> live s = true ->
  ok (svc s) /\
  match inq s with
  | [] => inq (svc s) = [] /\ outq (svc s) = outq s
  | m :: q =>
      inq (svc s) = q /\ outq (svc s) = outq s ++ reply m /\
      (stops m = true -> live (svc s) = false)
  end.

(** A [while True] service leaves its loop only on a stopping command. *)
Hypothesis svc_forever : forall s, ok s -> live s = true ->
  live (svc s) = match inq s with
                 | [] => true
                 | m :: _ => negb (stops m)
                 end.

Let hist := history inq outq live ok reply stops.
Let verd := verdict inq live stops.

Lemma calm_app l m : calm stops l -> stops m = false -> calm stops (l ++ [m]).
Proof.
  intros Hl Hm x Hx. apply in_app_or in Hx.
  destruct Hx as [Hx | [<- | []]]; auto.
Qed.

Lemma sends_cons a sched : sends (a :: sched) = sends [a] ++ sends sched.
Proof. cbn. rewrite app_nil_r. reflexivity. Qed.

Lemma history_step a s sent got :
  hist sent got s ->
  hist (sent ++ sends [a])
       (got ++ somes (snd (step put take svc a s)))
       (fst (step put take svc a s)).
Proof.
  intros (Hok & consumed & Hsent & Hgot & Hlast & Hlive).
  destruct a as [msg | | ]; cbn [step sends somes flat_map fst snd].
  - (* the host sends *)
    destruct (put_spec msg s Hok) as (Hok' & Hin & Hout & Hl).
    rewrite !app_nil_r. split; [exact Hok'|].
    exists consumed. rewrite Hin, Hout, Hl, Hsent, app_assoc. auto.
  - (* the host polls *)
    destruct (take_spec s Hok) as (Hok' & Hin & Hl & Hout).
    destruct (take s) as [r s'] eqn:E. cbn [fst snd] in *.
    split; [exact Hok'|]. exists consumed.
    rewrite Hin, Hl, app_nil_r. repeat split; auto.
    destruct (outq s) as [|r0 rest].
    + destruct Hout as [-> ->]. cbn. rewrite !app_nil_r in *. exact Hgot.
    + destruct Hout as [-> ->]. cbn. rewrite <- Hgot, <- app_assoc.
      reflexivity.
  - (* the thread runs *)
    rewrite !app_nil_r.
    destruct (live s) eqn:El.
    + destruct (svc_live s Hok El) as (Hok' & Hsvc).
      split; [exact Hok'|].
      destruct (inq s) as [|m q] eqn:Eq.
      * destruct Hsvc as [Hin Hout]. exists consumed.
        rewrite Hin, Hout. repeat split; auto.
      * destruct Hsvc as (Hin & Hout & Hstop).
        exists (consumed ++ [m]).
        rewrite Hin, Hout, removelast_last. repeat split; auto.
        -- rewrite Hsent, <- app_assoc. reflexivity.
        -- rewrite flat_map_app, <- Hgot. cbn [flat_map].
           rewrite app_nil_r, app_assoc. reflexivity.
        -- intro Hl'. apply calm_app; auto.
           destruct (stops m) eqn:Es; [|reflexivity].
           rewrite Hstop in Hl' by reflexivity. discriminate.
    + rewrite (svc_dead s El). split; [exact Hok|].
      exists consumed. rewrite El. repeat split; auto.
Qed.

Lemma verdict_step a s sent got :
  hist sent got s -> verd sent s ->
  verd (sent ++ sends [a]) (fst (step put take svc a s)).
Proof.
  intros (Hok & consumed & Hsent & _) Hv.
  destruct a as [msg | | ]; cbn [step sends flat_map fst snd].
  - destruct (put_spec msg s Hok) as (_ & Hin & _ & Hl).
    intros Hd. rewrite Hl in Hd. destruct (Hv Hd) as (pre & m & -> & Hm).
    exists pre, m. rewrite Hin, <- app_assoc. auto.
  - destruct (take_spec s Hok) as (_ & Hin & Hl & _).
    destruct (take s) as [r s'] eqn:E. cbn [fst snd] in *.
    intros Hd. rewrite Hl in Hd. destruct (Hv Hd) as (pre & m & -> & Hm).
    exists pre, m. rewrite Hin, app_nil_r. auto.
  - rewrite app_nil_r. destruct (live s) eqn:El.
    + intros Hd. rewrite (svc_forever s Hok El) in Hd.
      destruct (svc_live s Hok El) as (_ & Hsvc).
      destruct (inq s) as [|m q] eqn:Eq; [discriminate|].
      destruct Hsvc as (Hin & _). exists consumed, m.
      rewrite Hin. split; [exact Hsent|].
      destruct (stops m); [reflexivity | discriminate].
    + rewrite (svc_dead s El). exact Hv.
Qed.

Lemma history_exec sched : forall s sent got,
  hist sent got s ->
  hist (sent ++ sends sched)
       (got ++ somes (snd (exec put take svc sched s)))
       (fst (exec put take svc sched s)).
Proof.
  induction sched as [|a sched IH]; intros s sent got H.
  - cbn. rewrite !app_nil_r. exact H.
  - apply (history_step a) in H. cbn [exec].
    destruct (step put take svc a s) as [w1 o1] eqn:E1.
    cbn [fst snd] in H. apply IH in H.
    destruct (exec put take svc sched w1) as [w2 o2] eqn:E2.
    cbn [fst snd] in *.
    unfold somes in *. rewrite flat_map_app, sends_cons.
    rewrite !app_assoc. rewrite <- !app_assoc in H.
    rewrite <- !app_assoc. exact H.
Qed.

Lemma verdict_exec sched : forall s sent got,
  hist sent got s -> verd sent s ->
  verd (sent ++ sends sched) (fst (exec put take svc sched s)).
Proof.
  induction sched as [|a sched IH]; intros s sent got H Hv.
  - cbn. rewrite app_nil_r. exact Hv.
  - pose proof (verdict_step a s sent got H Hv) as Hv'.
    apply (history_step a) in H. cbn [exec].
    destruct (step put take svc a s) as [w1 o1] eqn:E1.
    cbn [fst snd] in *.
    pose proof (IH _ _ _ H Hv') as Hv2.
    destruct (exec put take svc sched w1) as [w2 o2] eqn:E2.
    cbn [fst snd] in *.
    rewrite sends_cons, app_assoc. exact Hv2.
Qed.

(** Once the thread is dead, whatever the host does: commands pile
    up unconsumed and the responses only ever leave. *)
Lemma dead_frame sched : forall s,
  ok s -> live s = false ->
  let s' := fst (exec put take svc sched s) in
  let got := somes (snd (exec put take svc sched s)) in
  ok s' /\ live s' = false /\
  inq s' = inq s ++ sends sched /\
  got ++ outq s' = outq s.
Proof.
  induction sched as [|a sched IH]; intros s Hok Hd.
  - cbn. rewrite app_nil_r. auto.
  - cbn [exec]. rewrite sends_cons.
    assert (Hstep : ok (fst (step put take svc a s)) /\
                    live (fst (step put take svc a s)) = false /\
                    inq (fst (step put take svc a s)) = inq s ++ sends [a] /\
                    somes (snd (step put take svc a s))
                      ++ outq (fst (step put take svc a s)) = outq s).
    { destruct a as [msg | | ]; cbn [step sends somes flat_map fst snd].
      - destruct (put_spec msg s Hok) as (Hok' & Hin & Hout & Hl).
        rewrite Hl, Hin, Hout, app_nil_r. auto.
      - destruct (take_spec s Hok) as (Hok' & Hin & Hl & Hout).
        destruct (take s) as [r s1]. cbn [fst snd] in *.
        rewrite Hl, Hin, !app_nil_r. repeat split; auto.
        destruct (outq s) as [|r0 rest]; destruct Hout as [-> ->];
          reflexivity.
      - rewrite (svc_dead s Hd), app_nil_r. auto. }
    destruct (step put take svc a s) as [w1 o1]. cbn [fst snd] in Hstep.
    destruct Hstep as (Hok1 & Hd1 & Hin1 & Hout1).
    specialize (IH w1 Hok1 Hd1). cbn zeta in IH.
    destruct (exec put take svc sched w1) as [w2 o2]. cbn [fst snd] in *.
    destruct IH as (Hok2 & Hd2 & Hin2 & Hout2).
    repeat split; auto.
    + rewrite Hin2, Hin1, app_assoc. reflexivity.
    + unfold somes in *. rewrite flat_map_app, <- app_assoc, Hout2.
      exact Hout1.
Qed.

Lemma exec_app s1 s2 : forall w,
  exec put take svc (s1 ++ s2) w =
  (fst (exec put take svc s2 (fst (exec put take svc s1 w))),
   snd (exec put take svc s1 w)
     ++ snd (exec put take svc s2 (fst (exec put take svc s1 w)))).
Proof.
  induction s1 as [|a s1 IH]; intros w; cbn [app exec].
  - cbn. destruct (exec put take svc s2 w). reflexivity.
  - destruct (step put take svc a w) as [w1 o1]. rewrite IH.
    destruct (exec put take svc s1 w1) as [w2 o2]. cbn [fst snd].
    rewrite app_assoc. reflexivity.
Qed.

Lemma exec_services_dead k : forall s,
  live s = false -> exec put take svc (repeat Service k) s = (s, []).
Proof.
  induction k as [|k IH]; intros s Hd; cbn; [reflexivity|].
  rewrite (svc_dead s Hd), (IH s Hd). reflexivity.
Qed.

(** From a live service with both queues empty. *)
Lemma history_init s :
  ok s -> inq s = [] -> outq s = [] -> hist [] [] s.
Proof.
  intros Hok Hi Ho. split; [exact Hok|]. exists [].
  rewrite Hi, Ho. cbn. repeat split.
  - intros m [].
  - intros _ m [].
Qed.

Variable ack : string.
Hypothesis reply_stop : forall m, stops m = true -> reply m = [ack].
Hypothesis reply_calm : forall m, stops m = false -> ~ In ack (reply m).

Lemma calm_no_ack l : calm stops l -> ~ In ack (flat_map reply l).
Proof.
  intros Hc Hin. apply in_flat_map in Hin. destruct Hin as (m & Hm & Hin).
  exact (reply_calm m (Hc m Hm) Hin).
Qed.

(** Every run of a [while True] service from a fresh start: while it
    lives no acknowledgement of a stop exists; once dead, the stopping
    command is the last one consumed and its acknowledgement the last
    and only one produced. *)
Lemma graceful sched s0 :
  ok s0 -> live s0 = true -> inq s0 = [] -> outq s0 = [] ->
  let s := fst (exec put take svc sched s0) in
  let got := somes (snd (exec put take svc sched s0)) in
  exists consumed,
    sends sched = consumed ++ inq s /\
    got ++ outq s = flat_map reply consumed /\
    if live s
    then calm stops consumed /\ ~ In ack (got ++ outq s)
    else exists pre m,
        consumed = pre ++ [m] /\ stops m = true /\ calm stops pre /\
        got ++ outq s = flat_map reply pre ++ [ack] /\
        ~ In ack (flat_map reply pre).
Proof.
  intros Hok Hl Hi Ho s got.
  pose proof (history_init s0 Hok Hi Ho) as H0.
  assert (Hv0 : verd [] s0) by (intro Hd; congruence).
  pose proof (history_exec sched _ _ _ H0) as H.
  pose proof (verdict_exec sched _ _ _ H0 Hv0) as Hv.
  cbn [app] in H, Hv. fold s in H, Hv. fold got in H.
  destruct H as (_ & consumed & Hsent & Hgot & Hlast & Hlive).
  exists consumed. split; [exact Hsent|]. split; [exact Hgot|].
  destruct (live s) eqn:El.
  - split; [auto|]. rewrite Hgot. apply calm_no_ack; auto.
  - destruct (Hv El) as (pre & m & Hs & Hm).
    rewrite Hs in Hsent.
    change (m :: inq s) with ([m] ++ inq s) in Hsent.
    rewrite app_assoc in Hsent. apply app_inv_tail in Hsent.
    subst consumed. rewrite removelast_last in Hlast.
    exists pre, m. repeat split; auto.
    + rewrite Hgot, flat_map_app. cbn [flat_map].
      rewrite app_nil_r, (reply_stop m Hm). reflexivity.
    + apply calm_no_ack; auto.
Qed.

End Protocol.

(** ** The exact-match service of [test_simulated_bridge] *)

Ltac py_unfold :=
  unfold subscript in *;
  unfold try_except, try_except_Empty, bind, ret, raise in *.

Lemma bridge_step_dead w : Bridge.alive w = false -> Bridge.service_step w = w.
Proof. intros H. unfold Bridge.service_step. rewrite H. reflexivity. Qed.

Lemma bridge_step_idle w :
  Bridge.alive w = true -> Bridge.to_service (Bridge.chan w) = [] ->
  Bridge.service_step w = w.
Proof.
  intros Ha Hq. destruct w as [[ts fs] a]. cbn in *. subst.
  reflexivity.
Qed.

Lemma bridge_step_cmd w m rest :
  Bridge.alive w = true -> Bridge.to_service (Bridge.chan w) = m :: rest ->
  Bridge.service_step w =
  {| Bridge.chan :=
       {| Bridge.to_service := rest;
          Bridge.from_service :=
            Bridge.from_service (Bridge.chan w) ++ [Bridge.reply m] |};
     Bridge.alive := negb (is_stop m) |}.
Proof.
  intros Ha Hq. destruct w as [[ts fs] a]. cbn in *. subst.
  unfold Bridge.service_step, Bridge.simulated_async_service_body,
    Bridge.to_service_get, Bridge.from_service_put, Bridge.reply, is_stop.
  py_unfold. cbn.
  destruct (String.eqb_spec m "ping") as [-> | Hping]; [reflexivity|].
  destruct (String.eqb_spec m "stop") as [-> | Hstop]; reflexivity.
Qed.

Lemma bridge_put_spec m w :
  True ->
  True /\ Bridge.inq (Bridge.host_send m w) = Bridge.inq w ++ [m] /\
  Bridge.outq (Bridge.host_send m w) = Bridge.outq w /\
  Bridge.alive (Bridge.host_send m w) = Bridge.alive w.
Proof. intros _. repeat split. Qed.

Lemma bridge_take_spec w :
  True ->
  True /\ Bridge.inq (snd (Bridge.host_try_recv w)) = Bridge.inq w /\
  Bridge.alive (snd (Bridge.host_try_recv w)) = Bridge.alive w /\
  match Bridge.outq w with
  | [] => fst (Bridge.host_try_recv w) = None /\
          Bridge.outq (snd (Bridge.host_try_recv w)) = []
  | r :: rest => fst (Bridge.host_try_recv w) = Some r /\
                 Bridge.outq (snd (Bridge.host_try_recv w)) = rest
  end.
Proof.
  intros _. destruct w as [[ts fs] a].
  unfold Bridge.host_try_recv, Bridge.try_recv_response,
    Bridge.from_service_get_nowait, Bridge.inq, Bridge.outq.
  py_unfold. cbn. destruct fs; cbn; repeat split.
Qed.

Lemma bridge_svc_live w :
  True -> Bridge.alive w = true ->
  True /\
  match Bridge.inq w with
  | [] => Bridge.inq (Bridge.service_step w) = [] /\
          Bridge.outq (Bridge.service_step w) = Bridge.outq w
  | m :: q =>
      Bridge.inq (Bridge.service_step w) = q /\
      Bridge.outq (Bridge.service_step w) = Bridge.outq w ++ [Bridge.reply m] /\
      (is_stop m = true -> Bridge.alive (Bridge.service_step w) = false)
  end.
Proof.
  intros _ Ha. split; [exact I|]. unfold Bridge.inq, Bridge.outq.
  destruct (Bridge.to_service (Bridge.chan w)) as [|m q] eqn:Eq.
  - rewrite (bridge_step_idle w Ha Eq). auto.
  - rewrite (bridge_step_cmd w m q Ha Eq). cbn. repeat split.
    intros ->. reflexivity.
Qed.

Lemma bridge_svc_forever w :
  True -> Bridge.alive w = true ->
  Bridge.alive (Bridge.service_step w) =
  match Bridge.inq w with [] => true | m :: _ => negb (is_stop m) end.
Proof.
  intros _ Ha. unfold Bridge.inq.
  destruct (Bridge.to_service (Bridge.chan w)) as [|m q] eqn:Eq.
  - rewrite (bridge_step_idle w Ha Eq). exact Ha.
  - rewrite (bridge_step_cmd w m q Ha Eq). reflexivity.
Qed.

Lemma is_stop_true m : is_stop m = true <-> m = "stop".
Proof. apply String.eqb_eq. Qed.

Lemma bridge_reply_stop m : is_stop m = true -> [Bridge.reply m] = ["stopped"].
Proof. intros H. apply is_stop_true in H. subst. reflexivity. Qed.

Lemma bridge_reply_stopped m : Bridge.reply m = "stopped" -> m = "stop".
Proof.
  unfold Bridge.reply.
  destruct (String.eqb_spec m "ping"); [discriminate|].
  destruct (String.eqb_spec m "stop"); [auto|]. cbn. discriminate.
Qed.

Lemma bridge_reply_calm m : is_stop m = false -> ~ In "stopped" [Bridge.reply m].
Proof.
  intros H [Hin | []]. apply bridge_reply_stopped in Hin.
  apply is_stop_true in Hin. congruence.
Qed.

Lemma calm_is_stop l : calm is_stop l <-> ~ In "stop" l.
Proof.
  split.
  - intros H Hin. specialize (H _ Hin). discriminate.
  - intros H m Hm. destruct (is_stop m) eqn:E; [|reflexivity].
    apply is_stop_true in E. subst. contradiction.
Qed.

Lemma flat_map_singleton {A B} (f : A -> B) l :
  flat_map (fun x => [f x]) l = map f l.
Proof. induction l; cbn; congruence. Qed.

(** Every run of the exact-match service from a fresh start. *)
Lemma bridge_runs sched :
  let w := fst (Bridge.run sched Bridge.fresh) in
  let got := somes (snd (Bridge.run sched Bridge.fresh)) in
  exists consumed,
    sends sched = consumed ++ Bridge.inq w /\
    got ++ Bridge.outq w = map Bridge.reply consumed /\
    if Bridge.alive w
    then ~ In "stop" consumed /\ ~ In "stopped" (got ++ Bridge.outq w)
    else exists pre,
        consumed = pre ++ ["stop"] /\ ~ In "stop" pre /\
        got ++ Bridge.outq w = map Bridge.reply pre ++ ["stopped"] /\
        ~ In "stopped" (map Bridge.reply pre).
Proof.
  intros w got.
  destruct (graceful Bridge.host_send Bridge.host_try_recv Bridge.service_step
              Bridge.inq Bridge.outq Bridge.alive (fun _ => True)
              (fun m => [Bridge.reply m]) is_stop
              bridge_put_spec bridge_take_spec bridge_step_dead
              bridge_svc_live bridge_svc_forever
              "stopped" bridge_reply_stop bridge_reply_calm
              sched Bridge.fresh I eq_refl eq_refl eq_refl)
    as (consumed & Hsent & Hgot & Hrest).
  fold (Bridge.run sched Bridge.fresh) in *. fold w in Hsent, Hgot, Hrest.
  fold got in Hgot, Hrest.
  rewrite flat_map_singleton in Hgot.
  exists consumed. split; [exact Hsent|]. split; [exact Hgot|].
  destruct (Bridge.alive w).
  - destruct Hrest as [Hc Hn]. split; [apply calm_is_stop; exact Hc | exact Hn].
  - destruct Hrest as (pre & m & -> & Hm & Hc & Hg & Hn).
    apply is_stop_true in Hm. subst m.
    rewrite flat_map_singleton in Hg, Hn.
    exists pre. repeat split; auto. apply calm_is_stop; exact Hc.
Qed.

(** ** The prefix-matching service of the operator *)

Lemma startswith_ping_not_stop m :
  Py.startswith m "ping" = true -> is_stop m = false.
Proof.
  intros H. unfold is_stop. destruct (String.eqb_spec m "stop"); [|reflexivity].
  subst. discriminate.
Qed.

Lemma pong_reply_stop m : is_stop m = true -> pong_reply m = ["stopped"].
Proof.
  intros H. apply is_stop_true in H. subst. reflexivity.
Qed.

Lemma pong_reply_calm m : is_stop m = false -> ~ In "stopped" (pong_reply m).
Proof.
  unfold pong_reply, is_stop. intros H.
  destruct (Py.startswith m "ping").
  - destruct (nth_error (Py.split m "_") 1); [|intros []].
    intros [Hin | []]. discriminate.
  - rewrite H. intros [].
Qed.

Lemma modal_step_dead w : Modal.alive w = false -> Modal.service_step w = w.
Proof. intros H. unfold Modal.service_step. rewrite H. reflexivity. Qed.

Lemma modal_step_idle w :
  Modal.alive w = true -> Modal._message_queue (Modal.self w) = Some [] ->
  Modal.service_step w = w.
Proof.
  intros Ha Hq. destruct w as [[t mq rq c rep] a h]. cbn in *. subst.
  reflexivity.
Qed.

Lemma modal_step_cmd w m rest rq :
  Modal.alive w = true ->
  Modal._message_queue (Modal.self w) = Some (m :: rest) ->
  Modal._response_queue (Modal.self w) = Some rq ->
  Modal.service_step w =
  {| Modal.self :=
       {| Modal._timer := Modal._timer (Modal.self w);
          Modal._message_queue := Some rest;
          Modal._response_queue := Some (rq ++ pong_reply m);
          Modal._counter := Modal._counter (Modal.self w);
          Modal.reports := Modal.reports (Modal.self w) |};
     Modal.alive := negb (is_stop m);
     Modal.handler := Modal.handler w |}.
Proof.
  intros Ha Hq Hr. destruct w as [[t mq rq' c rep] a h]. cbn in *. subst.
  unfold Modal.service_step, Modal.service_body, Modal.service_dispatch,
    Modal.message_queue_get, Modal.response_queue_put, Modal.attr,
    Modal.set_message_queue, Modal.set_response_queue, pong_reply.
  py_unfold. cbn [Modal.self Modal.alive Modal.handler Modal._message_queue].
  destruct (Py.startswith m "ping") eqn:Ep.
  - rewrite (startswith_ping_not_stop m Ep).
    destruct (nth_error (Py.split m "_") 1); cbn; rewrite ?app_nil_r;
      reflexivity.
  - unfold is_stop. destruct (m =? "stop")%string; cbn; rewrite ?app_nil_r;
      reflexivity.
Qed.

Lemma wired_queues w :
  Modal.wired w ->
  exists mq rq, Modal._message_queue (Modal.self w) = Some mq /\
                Modal._response_queue (Modal.self w) = Some rq.
Proof.
  intros [Hm Hr].
  destruct (Modal._message_queue (Modal.self w)) as [mq|]; [|discriminate].
  destruct (Modal._response_queue (Modal.self w)) as [rq|]; [|discriminate].
  eauto.
Qed.

Lemma modal_put_spec m w :
  Modal.wired w ->
  Modal.wired (Modal.host_send m w) /\
  Modal.inq (Modal.host_send m w) = Modal.inq w ++ [m] /\
  Modal.outq (Modal.host_send m w) = Modal.outq w /\
  Modal.alive (Modal.host_send m w) = Modal.alive w.
Proof.
  intros Hw. destruct (wired_queues w Hw) as (mq & rq & Hm & Hr).
  destruct w as [[t mq' rq' c rep] a h]. cbn in *. subst.
  unfold Modal.wired, Modal.inq, Modal.outq. cbn. auto.
Qed.

Lemma modal_take_spec w :
  Modal.wired w ->
  Modal.wired (snd (Modal.host_try_recv w)) /\
  Modal.inq (snd (Modal.host_try_recv w)) = Modal.inq w /\
  Modal.alive (snd (Modal.host_try_recv w)) = Modal.alive w /\
  match Modal.outq w with
  | [] => fst (Modal.host_try_recv w) = None /\
          Modal.outq (snd (Modal.host_try_recv w)) = []
  | r :: rest => fst (Modal.host_try_recv w) = Some r /\
                 Modal.outq (snd (Modal.host_try_recv w)) = rest
  end.
Proof.
  intros Hw. destruct (wired_queues w Hw) as (mq & rq & Hm & Hr).
  destruct w as [[t mq' rq' c rep] a h]. cbn in *. subst.
  unfold Modal.wired, Modal.inq, Modal.outq. destruct rq; cbn; auto.
Qed.

Lemma modal_svc_live w :
  Modal.wired w -> Modal.alive w = true ->
  Modal.wired (Modal.service_step w) /\
  match Modal.inq w with
  | [] => Modal.inq (Modal.service_step w) = [] /\
          Modal.outq (Modal.service_step w) = Modal.outq w
  | m :: q =>
      Modal.inq (Modal.service_step w) = q /\
      Modal.outq (Modal.service_step w) = Modal.outq w ++ pong_reply m /\
      (is_stop m = true -> Modal.alive (Modal.service_step w) = false)
  end.
Proof.
  intros Hw Ha. destruct (wired_queues w Hw) as (mq & rq & Hm & Hr).
  unfold Modal.inq, Modal.outq. rewrite Hm, Hr.
  destruct mq as [|m q].
  - rewrite (modal_step_idle w Ha Hm), Hm, Hr. auto.
  - rewrite (modal_step_cmd w m q rq Ha Hm Hr). cbn.
    repeat split. intros ->. reflexivity.
Qed.

Lemma modal_svc_forever w :
  Modal.wired w -> Modal.alive w = true ->
  Modal.alive (Modal.service_step w) =
  match Modal.inq w with [] => true | m :: _ => negb (is_stop m) end.
Proof.
  intros Hw Ha. destruct (wired_queues w Hw) as (mq & rq & Hm & Hr).
  unfold Modal.inq. rewrite Hm. destruct mq as [|m q].
  - rewrite (modal_step_idle w Ha Hm). exact Ha.
  - rewrite (modal_step_cmd w m q rq Ha Hm Hr). reflexivity.
Qed.

(** Every run of the operator's service, put in front of any producer,
    from the state [execute] leaves. *)
Lemma modal_runs sched :
  let w := fst (Modal.run sched Modal.start) in
  let got := somes (snd (Modal.run sched Modal.start)) in
  exists consumed,
    sends sched = consumed ++ Modal.inq w /\
    got ++ Modal.outq w = flat_map pong_reply consumed /\
    if Modal.alive w
    then ~ In "stop" consumed /\ ~ In "stopped" (got ++ Modal.outq w)
    else exists pre,
        consumed = pre ++ ["stop"] /\ ~ In "stop" pre /\
        got ++ Modal.outq w = flat_map pong_reply pre ++ ["stopped"] /\
        ~ In "stopped" (flat_map pong_reply pre).
Proof.
  intros w got.
  assert (Hw : Modal.wired Modal.start) by (split; reflexivity).
  destruct (graceful Modal.host_send Modal.host_try_recv Modal.service_step
              Modal.inq Modal.outq Modal.alive Modal.wired
              pong_reply is_stop
              modal_put_spec modal_take_spec modal_step_dead
              modal_svc_live modal_svc_forever
              "stopped" pong_reply_stop pong_reply_calm
              sched Modal.start Hw eq_refl eq_refl eq_refl)
    as (consumed & Hsent & Hgot & Hrest).
  fold (Modal.run sched Modal.start) in *. fold w in Hsent, Hgot, Hrest.
  fold got in Hgot, Hrest.
  exists consumed. split; [exact Hsent|]. split; [exact Hgot|].
  destruct (Modal.alive w).
  - destruct Hrest as [Hc Hn]. split; [apply calm_is_stop; exact Hc | exact Hn].
  - destruct Hrest as (pre & m & -> & Hm & Hc & Hg & Hn).
    apply is_stop_true in Hm. subst m.
    exists pre. repeat split; auto. apply calm_is_stop; exact Hc.
Qed.

(** ** The bounded service of the CLI test *)

Lemma cli_step_over w : Cli.live w = false -> Cli.service_step w = w.
Proof.
  unfold Cli.live, Cli.service_step. destruct (Cli.remaining w); cbn.
  - reflexivity.
  - discriminate.
Qed.

Lemma cli_step_idle w k :
  Cli.remaining w = S k -> Cli.message_queue (Cli.chan w) = [] ->
  Cli.service_step w = {| Cli.chan := Cli.chan w; Cli.remaining := k |}.
Proof.
  intros Hk Hq. destruct w as [[mq rq] n]. cbn in *. subst. reflexivity.
Qed.

Lemma cli_step_cmd w k m rest :
  Cli.remaining w = S k -> Cli.message_queue (Cli.chan w) = m :: rest ->
  Cli.service_step w =
  {| Cli.chan :=
       {| Cli.message_queue := rest;
          Cli.response_queue :=
            Cli.response_queue (Cli.chan w) ++ pong_reply m |};
     Cli.remaining := if is_stop m then 0 else k |}.
Proof.
  intros Hk Hq. destruct w as [[mq rq] n]. cbn in *. subst.
  unfold Cli.service_step, Cli.service_body, Cli.service_dispatch,
    Cli.message_queue_get, Cli.response_queue_put, pong_reply.
  py_unfold. cbn [Cli.chan Cli.remaining Cli.message_queue].
  destruct (Py.startswith m "ping") eqn:Ep.
  - rewrite (startswith_ping_not_stop m Ep).
    destruct (nth_error (Py.split m "_") 1); cbn; rewrite ?app_nil_r;
      reflexivity.
  - unfold is_stop. destruct (m =? "stop")%string; cbn; rewrite ?app_nil_r;
      reflexivity.
Qed.

Lemma cli_put_spec m w :
  True ->
  True /\ Cli.inq (Cli.host_send m w) = Cli.inq w ++ [m] /\
  Cli.outq (Cli.host_send m w) = Cli.outq w /\
  Cli.live (Cli.host_send m w) = Cli.live w.
Proof. intros _. repeat split. Qed.

Lemma cli_take_spec w :
  True ->
  True /\ Cli.inq (snd (Cli.host_try_recv w)) = Cli.inq w /\
  Cli.live (snd (Cli.host_try_recv w)) = Cli.live w /\
  match Cli.outq w with
  | [] => fst (Cli.host_try_recv w) = None /\
          Cli.outq (snd (Cli.host_try_recv w)) = []
  | r :: rest => fst (Cli.host_try_recv w) = Some r /\
                 Cli.outq (snd (Cli.host_try_recv w)) = rest
  end.
Proof.
  intros _. destruct w as [[mq rq] n].
  unfold Cli.host_try_recv, Cli.response_queue_get_nowait, Cli.inq, Cli.outq.
  py_unfold. cbn. destruct rq; cbn; repeat split.
Qed.

Lemma cli_svc_live w :
  True -> Cli.live w = true ->
  True /\
  match Cli.inq w with
  | [] => Cli.inq (Cli.service_step w) = [] /\
          Cli.outq (Cli.service_step w) = Cli.outq w
  | m :: q =>
      Cli.inq (Cli.service_step w) = q /\
      Cli.outq (Cli.service_step w) = Cli.outq w ++ pong_reply m /\
      (is_stop m = true -> Cli.live (Cli.service_step w) = false)
  end.
Proof.
  intros _ Ha. split; [exact I|]. unfold Cli.inq, Cli.outq, Cli.live in *.
  destruct (Cli.remaining w) as [|k] eqn:Ek; [discriminate|].
  destruct (Cli.message_queue (Cli.chan w)) as [|m q] eqn:Eq.
  - rewrite (cli_step_idle w k Ek Eq). cbn. auto.
  - rewrite (cli_step_cmd w k m q Ek Eq). cbn. repeat split.
    intros ->. reflexivity.
Qed.

(** Every run of the bounded service from a fresh start: the responses
    are the replies to a prefix of the commands sent, in their order. *)
Lemma cli_runs sched :
  let w := fst (Cli.run sched Cli.fresh) in
  let got := somes (snd (Cli.run sched Cli.fresh)) in
  exists consumed,
    sends sched = consumed ++ Cli.inq w /\
    got ++ Cli.outq w = flat_map pong_reply consumed.
Proof.
  intros w got.
  assert (H0 : history Cli.inq Cli.outq Cli.live (fun _ => True)
                 pong_reply is_stop [] [] Cli.fresh).
  { apply history_init; auto. }
  pose proof (history_exec Cli.host_send Cli.host_try_recv Cli.service_step
                Cli.inq Cli.outq Cli.live (fun _ => True) pong_reply is_stop
                cli_put_spec cli_take_spec cli_step_over cli_svc_live
                sched _ _ _ H0) as (_ & consumed & Hs & Hg & _).
  exists consumed. split; [exact Hs | exact Hg].
Qed.

(** ** The operator's timer callback *)

(** [modal] on a [TIMER] event, in closed form. *)
Lemma modal_timer s :
  let c := (Modal._counter s + 1)%Z in
  let ping := if (c mod 10 =? 0)%Z then [("ping_" ++ Py.str (c / 10))%string]
              else [] in
  let stop := if (c >=? 50)%Z then ["stop"] else [] in
  Modal.modal Modal.TIMER s =
  (Return (if (c >=? 50)%Z then Modal.FINISHED else Modal.PASS_THROUGH),
   {| Modal._timer := Modal._timer s;
      Modal._message_queue :=
        option_map (fun q => q ++ ping ++ stop) (Modal._message_queue s);
      Modal._response_queue :=
        option_map (@tl string) (Modal._response_queue s);
      Modal._counter := c;
      Modal.reports :=
        Modal.reports s
          ++ match Modal._response_queue s with
             | Some (r :: _) => [("Received: " ++ r)%string]
             | _ => []
             end
          ++ (if Modal.truthy (Modal._message_queue s)
              then map (fun p => ("Sent: " ++ p)%string) ping else []) |}).
Proof.
  destruct s as [t mq rq c0 rep].
  unfold Modal.modal, Modal.response_queue_empty,
    Modal.response_queue_get_nowait, Modal.message_queue_put, Modal.report,
    Modal.set_counter, Modal.set_message_queue, Modal.set_response_queue,
    Modal.attr.
  py_unfold.
  cbn -[Z.modulo Z.div Z.add Z.geb Z.eqb Py.str String.append].
  destruct mq as [mq|]; destruct rq as [[|r rq]|];
    cbn -[Z.modulo Z.div Z.add Z.geb Z.eqb Py.str String.append];
    destruct ((c0 + 1) mod 10 =? 0)%Z;
    cbn -[Z.modulo Z.div Z.add Z.geb Z.eqb Py.str String.append];
    destruct (c0 + 1 >=? 50)%Z;
    cbn -[Z.modulo Z.div Z.add Z.geb Z.eqb Py.str String.append];
    rewrite ?app_nil_r, <- ?app_assoc; reflexivity.
Qed.

Lemma event_is_timer ev :
  (Modal.type ev =? "TIMER")%string = true -> ev = Modal.TIMER.
Proof.
  destruct ev as [ty]. cbn. intros H. apply String.eqb_eq in H. subst.
  reflexivity.
Qed.

Lemma modal_other ev s :
  (Modal.type ev =? "TIMER")%string = false ->
  Modal.modal ev s = (Return Modal.PASS_THROUGH, s).
Proof. intros H. unfold Modal.modal. rewrite H. reflexivity. Qed.

Lemma deliver_unhandled ev w :
  Modal.handler w = false -> Modal.deliver ev w = (w, []).
Proof. intros H. unfold Modal.deliver. rewrite H. reflexivity. Qed.

Lemma in_tl {A} (x : A) l : In x (tl l) -> In x l.
Proof. destruct l; cbn; auto. Qed.

Lemma deliver_unacknowledged ev w :
  Modal.unacknowledged w -> Modal.unacknowledged (fst (Modal.deliver ev w)).
Proof.
  intros Hinv. pose proof Hinv as (Hw & Hh & Hrep & Hq).
  unfold Modal.deliver. destruct (Modal.handler w) eqn:Eh; [|exact Hinv].
  destruct (Modal.type ev =? "TIMER")%string eqn:Et.
  - apply event_is_timer in Et. subst ev. rewrite modal_timer.
    destruct (wired_queues w Hw) as (mq & rq & Hm & Hr).
    destruct (Hq eq_refl) as (Halive & Hstop & Hack).
    unfold Modal.inq, Modal.outq in Hstop, Hack. rewrite Hm in Hstop.
    rewrite Hr in Hack.
    symmetry in Hh. apply Z.ltb_lt in Hh.
    assert (Hreports :
      ~ In "Received: stopped"
          (Modal.reports (Modal.self w)
             ++ match Modal._response_queue (Modal.self w) with
                | Some (r :: _) => [("Received: " ++ r)%string]
                | _ => []
                end
             ++ (if Modal.truthy (Modal._message_queue (Modal.self w))
                 then map (fun p => ("Sent: " ++ p)%string)
                        (if ((Modal._counter (Modal.self w) + 1) mod 10 =? 0)%Z
                         then [("ping_" ++ Py.str
                                  ((Modal._counter (Modal.self w) + 1) / 10))%string]
                         else [])
                 else []))).
    { intros Hin. apply in_app_or in Hin. destruct Hin as [Hin | Hin];
        [exact (Hrep Hin)|].
      apply in_app_or in Hin. destruct Hin as [Hin | Hin].
      - rewrite Hr in Hin. destruct rq as [|r rq]; [destruct Hin|].
        destruct Hin as [Hin | []]. cbn in Hin. inversion Hin; subst.
        apply Hack. left. reflexivity.
      - destruct (Modal.truthy _); [|destruct Hin].
        destruct (_ =? 0)%Z; [|destruct Hin].
        destruct Hin as [Hin | []]. cbn in Hin. discriminate. }
    destruct (Modal._counter (Modal.self w) + 1 >=? 50)%Z eqn:Eg;
      cbn [fst Modal.self Modal.handler Modal.alive].
    + (* the finishing tick *)
      split; [|split; [|split]].
      * unfold Modal.wired. cbn [Modal.self Modal._message_queue
                                  Modal._response_queue].
        rewrite Hm, Hr. split; reflexivity.
      * cbn [Modal.self Modal.handler Modal._counter].
        symmetry. apply Z.ltb_ge. rewrite Z.geb_leb in Eg.
        apply Z.leb_le in Eg. lia.
      * exact Hreports.
      * cbn [Modal.handler]. discriminate.
    + split; [|split; [|split]].
      * unfold Modal.wired. cbn [Modal.self Modal._message_queue
                                  Modal._response_queue].
        rewrite Hm, Hr. split; reflexivity.
      * cbn [Modal.self Modal.handler Modal._counter].
        symmetry. apply Z.ltb_lt. rewrite Z.geb_leb in Eg.
        apply Z.leb_gt in Eg. lia.
      * exact Hreports.
      * intros _. split; [exact Halive|]. unfold Modal.inq, Modal.outq.
        cbn [Modal.self Modal._message_queue Modal._response_queue].
        rewrite Hm, Hr. cbn [option_map]. split.
        -- intros Hin. apply in_app_or in Hin. destruct Hin as [Hin | Hin];
             [exact (Hstop Hin)|].
           rewrite app_nil_r in Hin. destruct (_ =? 0)%Z; [|destruct Hin].
           destruct Hin as [Hin | []]. cbn in Hin. discriminate.
        -- intros Hin. apply in_tl in Hin. exact (Hack Hin).
  - rewrite (modal_other ev _ Et). cbn [fst].
    destruct w as [s a h]. cbn in *. subst h. exact Hinv.
Qed.

Lemma thread_unacknowledged w :
  Modal.unacknowledged w -> Modal.unacknowledged (Modal.service_step w).
Proof.
  intros Hinv. pose proof Hinv as (Hw & Hh & Hrep & Hq).
  destruct (Modal.alive w) eqn:Ea; [|rewrite modal_step_dead; auto].
  destruct (wired_queues w Hw) as (mq & rq & Hm & Hr).
  destruct mq as [|m mq]; [rewrite (modal_step_idle w Ea Hm); exact Hinv|].
  rewrite (modal_step_cmd w m mq rq Ea Hm Hr).
  split; [|split; [|split]].
  - split; reflexivity.
  - exact Hh.
  - exact Hrep.
  - cbn [Modal.handler Modal.alive]. intros H.
    destruct (Hq H) as (_ & Hstop & Hack).
    unfold Modal.inq, Modal.outq in *. rewrite Hm in Hstop.
    rewrite Hr in Hack.
    cbn [Modal.self Modal._message_queue Modal._response_queue].
    assert (Es : is_stop m = false).
    { destruct (is_stop m) eqn:Es; [|reflexivity].
      apply is_stop_true in Es. subst m. exfalso. apply Hstop.
      left. reflexivity. }
    rewrite Es. split; [reflexivity|]. split.
    + intros Hin. apply Hstop. right. exact Hin.
    + intros Hin. apply in_app_or in Hin. destruct Hin as [Hin | Hin].
      * exact (Hack Hin).
      * exact (pong_reply_calm m Es Hin).
Qed.

Lemma drive_unacknowledged ins : forall w,
  Modal.unacknowledged w -> Modal.unacknowledged (fst (Modal.drive ins w)).
Proof.
  induction ins as [|[ev|] ins IH]; intros w Hinv; cbn [Modal.drive].
  - exact Hinv.
  - pose proof (deliver_unacknowledged ev w Hinv) as H1.
    destruct (Modal.deliver ev w) as [w1 r1]. cbn [fst] in H1.
    specialize (IH w1 H1). destruct (Modal.drive ins w1) as [w2 r2].
    exact IH.
  - apply IH. apply thread_unacknowledged. exact Hinv.
Qed.

Lemma start_unacknowledged : Modal.unacknowledged Modal.start.
Proof.
  unfold Modal.unacknowledged, Modal.wired, Modal.inq, Modal.outq. cbn.
  repeat split; auto.
  intros [H | []]. discriminate.
Qed.

(** ** Scheduling the exact-match service alone *)

Lemma bridge_services_idle k : forall w,
  Bridge.alive w = true -> Bridge.to_service (Bridge.chan w) = [] ->
  Bridge.run (repeat Service k) w = (w, []).
Proof.
  unfold Bridge.run.
  induction k as [|k IH]; intros w Ha Hq; cbn; [reflexivity|].
  rewrite (bridge_step_idle w Ha Hq), (IH w Ha Hq). reflexivity.
Qed.

Lemma bridge_services_one k w m :
  Bridge.alive w = true -> Bridge.to_service (Bridge.chan w) = [m] ->
  Bridge.run (repeat Service (S k)) w =
  ({| Bridge.chan :=
        {| Bridge.to_service := [];
           Bridge.from_service :=
             Bridge.from_service (Bridge.chan w) ++ [Bridge.reply m] |};
      Bridge.alive := negb (is_stop m) |}, []).
Proof.
  intros Ha Hq. unfold Bridge.run. cbn [repeat exec step].
  rewrite (bridge_step_cmd w m [] Ha Hq).
  destruct (is_stop m); cbn [negb].
  - rewrite (exec_services_dead _ _ _ Bridge.alive bridge_step_dead);
      reflexivity.
  - fold (Bridge.run (repeat Service k)).
    rewrite bridge_services_idle; reflexivity.
Qed.

Lemma bridge_reply_pong m : Bridge.reply m = "pong" <-> m = "ping".
Proof.
  unfold Bridge.reply. split.
  - destruct (String.eqb_spec m "ping"); [auto|].
    destruct (String.eqb_spec m "stop"); [discriminate|]. cbn. discriminate.
  - intros ->. reflexivity.
Qed.

Lemma bridge_count_pong l :
  count_occ string_dec (map Bridge.reply l) "pong" =
  count_occ string_dec l "ping".
Proof.
  induction l as [|m l IH]; cbn [map count_occ]; [reflexivity|].
  destruct (string_dec (Bridge.reply m) "pong") as [E | E];
    destruct (string_dec m "ping") as [E' | E']; try congruence.
  - apply bridge_reply_pong in E. contradiction.
  - apply bridge_reply_pong in E'. contradiction.
Qed.

(** * The claims *)

(** C1 (graceful stop).  In both [while True] services (the exact-match
    [simulated_async_service] and the operator's [service]):
    a live thread that takes ["stop"] pushes exactly ["stopped"] and
    leaves its loop; a thread that has left its loop changes nothing when
    scheduled, and under every later schedule of host sends, host polls
    and thread turns it stays dead, the commands sent pile up unconsumed
    and the responses only leave the queue; and in every run from a fresh
    start the commands consumed are a prefix of those sent, with no
    ["stopped"] anywhere while the thread lives and, once it is dead,
    ["stop"] the last command consumed and ["stopped"] the last response
    produced and the only one of its kind. *)
Theorem C1_graceful_stop :
  (forall w rest,
      Bridge.alive w = true ->
      Bridge.to_service (Bridge.chan w) = "stop" :: rest ->
      Bridge.service_step w =
      {| Bridge.chan :=
           {| Bridge.to_service := rest;
              Bridge.from_service :=
                Bridge.from_service (Bridge.chan w) ++ ["stopped"] |};
         Bridge.alive := false |}) /\
  (forall w sched,
      Bridge.alive w = false ->
      let w' := fst (Bridge.run sched w) in
      let got := somes (snd (Bridge.run sched w)) in
      Bridge.service_step w = w /\
      Bridge.alive w' = false /\
      Bridge.to_service (Bridge.chan w') =
        Bridge.to_service (Bridge.chan w) ++ sends sched /\
      got ++ Bridge.from_service (Bridge.chan w') =
        Bridge.from_service (Bridge.chan w)) /\
  (forall sched,
      let w := fst (Bridge.run sched Bridge.fresh) in
      let got := somes (snd (Bridge.run sched Bridge.fresh)) in
      exists consumed,
        sends sched = consumed ++ Bridge.to_service (Bridge.chan w) /\
        if Bridge.alive w
        then ~ In "stop" consumed /\
             ~ In "stopped" (got ++ Bridge.from_service (Bridge.chan w))
        else exists pre rs,
            consumed = pre ++ ["stop"] /\ ~ In "stop" pre /\
            got ++ Bridge.from_service (Bridge.chan w) = rs ++ ["stopped"] /\
            ~ In "stopped" rs) /\
  (forall w rest rq,
      Modal.alive w = true ->
      Modal._message_queue (Modal.self w) = Some ("stop" :: rest) ->
      Modal._response_queue (Modal.self w) = Some rq ->
      Modal.alive (Modal.service_step w) = false /\
      Modal._message_queue (Modal.self (Modal.service_step w)) = Some rest /\
      Modal._response_queue (Modal.self (Modal.service_step w)) =
        Some (rq ++ ["stopped"])) /\
  (forall w sched,
      Modal.wired w -> Modal.alive w = false ->
      let w' := fst (Modal.run sched w) in
      let got := somes (snd (Modal.run sched w)) in
      Modal.service_step w = w /\
      Modal.alive w' = false /\
      Modal.inq w' = Modal.inq w ++ sends sched /\
      got ++ Modal.outq w' = Modal.outq w) /\
  (forall sched,
      let w := fst (Modal.run sched Modal.start) in
      let got := somes (snd (Modal.run sched Modal.start)) in
      exists consumed,
        sends sched = consumed ++ Modal.inq w /\
        if Modal.alive w
        then ~ In "stop" consumed /\ ~ In "stopped" (got ++ Modal.outq w)
        else exists pre rs,
            consumed = pre ++ ["stop"] /\ ~ In "stop" pre /\
            got ++ Modal.outq w = rs ++ ["stopped"] /\
            ~ In "stopped" rs).
Proof.
  split; [|split; [|split; [|split; [|split]]]].
  - intros w rest Ha Hq. rewrite (bridge_step_cmd w "stop" rest Ha Hq).
    reflexivity.
  - intros w sched Hd w' got. split; [apply bridge_step_dead; exact Hd|].
    destruct (dead_frame Bridge.host_send Bridge.host_try_recv
                Bridge.service_step Bridge.inq Bridge.outq Bridge.alive
                (fun _ => True) bridge_put_spec bridge_take_spec
                bridge_step_dead sched w I Hd) as (_ & H1 & H2 & H3).
    auto.
  - intros sched w got.
    destruct (bridge_runs sched) as (consumed & Hs & Hg & Hrest).
    fold w in Hs, Hg, Hrest. fold got in Hg, Hrest.
    exists consumed. split; [exact Hs|].
    destruct (Bridge.alive w); [exact Hrest|].
    destruct Hrest as (pre & Hc & Hn & Hg' & Hn').
    exists pre, (map Bridge.reply pre). auto.
  - intros w rest rq Ha Hm Hr.
    rewrite (modal_step_cmd w "stop" rest rq Ha Hm Hr). cbn. auto.
  - intros w sched Hw Hd w' got. split; [apply modal_step_dead; exact Hd|].
    destruct (dead_frame Modal.host_send Modal.host_try_recv
                Modal.service_step Modal.inq Modal.outq Modal.alive
                Modal.wired modal_put_spec modal_take_spec
                modal_step_dead sched w Hw Hd) as (_ & H1 & H2 & H3).
    auto.
  - intros sched w got.
    destruct (modal_runs sched) as (consumed & Hs & Hg & Hrest).
    fold w in Hs, Hg, Hrest. fold got in Hg, Hrest.
    exists consumed. split; [exact Hs|].
    destruct (Modal.alive w); [exact Hrest|].
    destruct Hrest as (pre & Hc & Hn & Hg' & Hn').
    exists pre, (flat_map pong_reply pre). auto.
Qed.

Lemma C1_graceful_stop_witness :
  Bridge.service_step
    {| Bridge.chan := {| Bridge.to_service := ["stop"; "ping"];
                         Bridge.from_service := ["pong"] |};
       Bridge.alive := true |} =
  {| Bridge.chan := {| Bridge.to_service := ["ping"];
                       Bridge.from_service := ["pong"; "stopped"] |};
     Bridge.alive := false |} /\
  Modal.alive
    (Modal.service_step
       (fst (Modal.run [Send "ping_1"; Service; Send "stop"] Modal.start)))
  = false /\
  Modal.inq
    (fst (Modal.run [Send "ping"; Service; Send "ping_2"]
            (fst (Modal.run [Send "stop"; Service] Modal.start))))
  = ["ping"; "ping_2"].
Proof.
  split; [|split].
  - exact (proj1 C1_graceful_stop
             {| Bridge.chan := {| Bridge.to_service := ["stop"; "ping"];
                                  Bridge.from_service := ["pong"] |};
                Bridge.alive := true |} ["ping"] eq_refl eq_refl).
  - exact (proj1 (proj1 (proj2 (proj2 (proj2 C1_graceful_stop)))
                    (fst (Modal.run [Send "ping_1"; Service; Send "stop"]
                            Modal.start))
                    [] ["pong_1"] eq_refl eq_refl eq_refl)).
  - exact (proj1 (proj2 (proj2
             (proj1 (proj2 (proj2 (proj2 (proj2 C1_graceful_stop))))
                (fst (Modal.run [Send "stop"; Service] Modal.start))
                [Send "ping"; Service; Send "ping_2"]
                (conj eq_refl eq_refl) eq_refl)))).
Defined.

(** C2 (ping/pong).  In the exact-match service: a live thread that
    takes ["ping"] pushes exactly ["pong"] and stays in its loop; in every
    run from a fresh start there are as many ["pong"]s among the responses
    as ["ping"]s among the commands consumed; and as soon as the thread
    has been scheduled once after the send, the host's non-blocking
    receive returns ["pong"] and the next one returns [None], so the test
    of lines 132-148 passes whenever each of its two sleeps gives the
    thread at least one turn. *)
Theorem C2_ping_pong :
  (forall w rest,
      Bridge.alive w = true ->
      Bridge.to_service (Bridge.chan w) = "ping" :: rest ->
      Bridge.service_step w =
      {| Bridge.chan :=
           {| Bridge.to_service := rest;
              Bridge.from_service :=
                Bridge.from_service (Bridge.chan w) ++ ["pong"] |};
         Bridge.alive := true |}) /\
  (forall sched,
      let w := fst (Bridge.run sched Bridge.fresh) in
      let got := somes (snd (Bridge.run sched Bridge.fresh)) in
      exists consumed,
        sends sched = consumed ++ Bridge.to_service (Bridge.chan w) /\
        count_occ string_dec
          (got ++ Bridge.from_service (Bridge.chan w)) "pong" =
        count_occ string_dec consumed "ping") /\
  (forall w k,
      Bridge.alive w = true ->
      Bridge.to_service (Bridge.chan w) = [] ->
      Bridge.from_service (Bridge.chan w) = [] ->
      Bridge.run (Send "ping" :: repeat Service (S k) ++ [TryRecv; TryRecv]) w
      = (w, [Some "pong"; None])) /\
  (forall k0 k1 k2,
      1 <= k1 -> 1 <= k2 -> Bridge.test_simulated_bridge k0 k1 k2 = inr tt).
Proof.
  split; [|split; [|split]].
  - intros w rest Ha Hq. rewrite (bridge_step_cmd w "ping" rest Ha Hq).
    reflexivity.
  - intros sched w got.
    destruct (bridge_runs sched) as (consumed & Hs & Hg & _).
    fold w in Hs, Hg. fold got in Hg. exists consumed.
    split; [exact Hs|]. unfold Bridge.outq in Hg.
    rewrite Hg. apply bridge_count_pong.
  - intros w k Ha Hq Hf. destruct w as [[ts fs] a]. cbn in Ha, Hq, Hf.
    subst.
    pose proof (bridge_services_one k
                  (Bridge.host_send "ping"
                     {| Bridge.chan := {| Bridge.to_service := [];
                                          Bridge.from_service := [] |};
                        Bridge.alive := true |}) "ping" eq_refl eq_refl) as E.
    unfold Bridge.run in *. cbn [exec step]. rewrite exec_app, E.
    reflexivity.
  - intros k0 [|k1] [|k2] H1 H2; try lia.
    unfold Bridge.test_simulated_bridge.
    rewrite (bridge_services_idle k0 Bridge.fresh eq_refl eq_refl).
    cbn [fst].
    rewrite bridge_services_one with (m := "ping") by reflexivity.
    cbn -[Bridge.run repeat].
    rewrite bridge_services_one with (m := "stop") by reflexivity.
    reflexivity.
Qed.

Lemma C2_ping_pong_witness :
  Bridge.service_step
    {| Bridge.chan := {| Bridge.to_service := ["ping"; "xyz"];
                         Bridge.from_service := ["unknown: abc"] |};
       Bridge.alive := true |} =
  {| Bridge.chan := {| Bridge.to_service := ["xyz"];
                       Bridge.from_service := ["unknown: abc"; "pong"] |};
     Bridge.alive := true |} /\
  Bridge.run [Send "ping"; Service; Service; TryRecv; TryRecv] Bridge.fresh
  = (Bridge.fresh, [Some "pong"; None]) /\
  Bridge.test_simulated_bridge 2 1 3 = inr tt.
Proof.
  split; [|split].
  - exact (proj1 C2_ping_pong
             {| Bridge.chan := {| Bridge.to_service := ["ping"; "xyz"];
                                  Bridge.from_service := ["unknown: abc"] |};
                Bridge.alive := true |} ["xyz"] eq_refl eq_refl).
  - exact (proj1 (proj2 (proj2 C2_ping_pong))
             Bridge.fresh 1 eq_refl eq_refl eq_refl).
  - apply (proj2 (proj2 (proj2 C2_ping_pong)) 2 1 3); lia.
Defined.

(** ** Commands the prefix-matching service does not answer *)

Lemma modal_dispatch_raise msg s e s' :
  Modal.service_dispatch msg s = (Raise e, s') -> s' = s.
Proof.
  destruct s as [t mq rq c rep].
  unfold Modal.service_dispatch, Modal.response_queue_put, Modal.attr,
    Modal.set_response_queue.
  py_unfold. cbn [Modal._response_queue].
  destruct (Py.startswith msg "ping").
  - destruct rq as [rq|]; cbn [Modal.truthy];
      [|intros H; inversion H; reflexivity].
    destruct (nth_error (Py.split msg "_") 1); cbn; intros H; inversion H.
    reflexivity.
  - destruct (msg =? "stop")%string; [|intros H; inversion H].
    destruct rq as [rq|]; cbn; intros H; inversion H. reflexivity.
Qed.

Lemma cli_dispatch_raise msg q e q' :
  Cli.service_dispatch msg q = (Raise e, q') -> q' = q.
Proof.
  destruct q as [mq rq].
  unfold Cli.service_dispatch, Cli.response_queue_put. py_unfold.
  destruct (Py.startswith msg "ping").
  - destruct (nth_error (Py.split msg "_") 1); cbn; intros H; inversion H.
    reflexivity.
  - destruct (msg =? "stop")%string; cbn; intros H; inversion H.
Qed.

Lemma modal_step_raise w msg rest e s' :
  Modal.alive w = true ->
  Modal._message_queue (Modal.self w) = Some (msg :: rest) ->
  Modal.service_dispatch msg
    (snd (Modal.set_message_queue (Some rest) (Modal.self w))) = (Raise e, s') ->
  Modal.service_step w =
  {| Modal.self := snd (Modal.set_message_queue (Some rest) (Modal.self w));
     Modal.alive := true;
     Modal.handler := Modal.handler w |}.
Proof.
  intros Ha Hq Hd. pose proof (modal_dispatch_raise _ _ _ _ Hd) as ->.
  unfold Modal.service_step, Modal.service_body, Modal.message_queue_get,
    Modal.attr.
  rewrite Ha. unfold try_except, bind at 1 2. rewrite Hq.
  unfold bind at 1. unfold ret at 1.
  change (Modal.set_message_queue (Some rest) (Modal.self w))
    with (Return tt, snd (Modal.set_message_queue (Some rest) (Modal.self w))).
  cbv beta iota. rewrite Hd. reflexivity.
Qed.

Lemma cli_step_raise w k msg rest e q' :
  Cli.remaining w = S k ->
  Cli.message_queue (Cli.chan w) = msg :: rest ->
  Cli.service_dispatch msg
    {| Cli.message_queue := rest;
       Cli.response_queue := Cli.response_queue (Cli.chan w) |} = (Raise e, q') ->
  Cli.service_step w =
  {| Cli.chan := {| Cli.message_queue := rest;
                    Cli.response_queue := Cli.response_queue (Cli.chan w) |};
     Cli.remaining := k |}.
Proof.
  intros Hk Hq Hd. pose proof (cli_dispatch_raise _ _ _ _ Hd) as ->.
  unfold Cli.service_step, Cli.service_body, Cli.message_queue_get.
  rewrite Hk. unfold try_except, bind. rewrite Hq, Hd. reflexivity.
Qed.

(** C3 (unknown commands), as amended.  The exact-match service answers
    every command other than ["ping"] and ["stop"] with ["unknown: "]
    followed by the command and stays in its loop.  The operator's service
    has no such branch: a command that neither starts with ["ping"] nor is
    ["stop"] is taken off the queue, nothing is pushed, and the loop goes
    on. *)
Theorem C3_unknown_command :
  (forall w message rest,
      Bridge.alive w = true ->
      Bridge.to_service (Bridge.chan w) = message :: rest ->
      message <> "ping" -> message <> "stop" ->
      Bridge.service_step w =
      {| Bridge.chan :=
           {| Bridge.to_service := rest;
              Bridge.from_service :=
                Bridge.from_service (Bridge.chan w)
                  ++ [("unknown: " ++ message)%string] |};
         Bridge.alive := true |}) /\
  (forall w msg rest rq,
      Modal.alive w = true ->
      Modal._message_queue (Modal.self w) = Some (msg :: rest) ->
      Modal._response_queue (Modal.self w) = Some rq ->
      Py.startswith msg "ping" = false -> msg <> "stop" ->
      Modal.alive (Modal.service_step w) = true /\
      Modal._message_queue (Modal.self (Modal.service_step w)) = Some rest /\
      Modal._response_queue (Modal.self (Modal.service_step w)) = Some rq).
Proof.
  split.
  - intros w message rest Ha Hq Hp Hs.
    rewrite (bridge_step_cmd w message rest Ha Hq).
    unfold Bridge.reply, is_stop.
    apply String.eqb_neq in Hp, Hs. rewrite Hp, Hs. reflexivity.
  - intros w msg rest rq Ha Hm Hr Hp Hs.
    rewrite (modal_step_cmd w msg rest rq Ha Hm Hr).
    unfold pong_reply, is_stop. apply String.eqb_neq in Hs.
    rewrite Hp, Hs, app_nil_r. cbn. auto.
Qed.

Lemma C3_unknown_command_witness :
  Bridge.service_step (fst (Bridge.run [Send "xyz"] Bridge.fresh)) =
  {| Bridge.chan := {| Bridge.to_service := [];
                       Bridge.from_service := ["unknown: xyz"] |};
     Bridge.alive := true |} /\
  Modal._response_queue
    (Modal.self (Modal.service_step (fst (Modal.run [Send "xyz"] Modal.start))))
  = Some [].
Proof.
  split.
  - apply (proj1 C3_unknown_command
             (fst (Bridge.run [Send "xyz"] Bridge.fresh)) "xyz" []);
      try reflexivity; discriminate.
  - apply (proj2 C3_unknown_command
             (fst (Modal.run [Send "xyz"] Modal.start)) "xyz" [] []);
      try reflexivity; discriminate.
Defined.

(** C3 as stated fails on the operator's service: it takes ["xyz"],
    which is neither ping-shaped nor ["stop"], off the queue and pushes no
    response; the host's next poll finds nothing. *)
Lemma C3_counterexample :
  let w := fst (Modal.run [Send "xyz"] Modal.start) in
  Py.startswith "xyz" "ping" = false /\ "xyz" <> "stop" /\
  Modal.alive w = true /\
  Modal.inq w = ["xyz"] /\ Modal.outq w = [] /\
  Modal.inq (Modal.service_step w) = [] /\
  Modal.outq (Modal.service_step w) = [] /\
  snd (Modal.run [Send "xyz"; Service; TryRecv] Modal.start) = [None].
Proof. cbv zeta. repeat split. discriminate. Qed.

(** C4 (order preservation).  In every run of the exact-match service
    and of the CLI test's service from a fresh start, under any
    interleaving of sends, polls and thread turns, the commands consumed
    are a prefix of the commands sent and the responses (those the host
    has received followed by those still queued) are the replies to the
    consumed commands in the same order, where the reply to a command is
    what the thread pushes when it takes that command.  In particular
    ["ping_1"; "ping_2"; "stop"] sent to the CLI test's service comes back
    as ["pong_1"; "pong_2"; "stopped"], and the test of lines 106-127
    passes whenever its sleep gives the thread its three turns. *)
Theorem C4_order_preserved :
  (forall w m rest,
      Bridge.alive w = true ->
      Bridge.to_service (Bridge.chan w) = m :: rest ->
      Bridge.from_service (Bridge.chan (Bridge.service_step w)) =
      Bridge.from_service (Bridge.chan w) ++ [Bridge.reply m]) /\
  (forall sched,
      let w := fst (Bridge.run sched Bridge.fresh) in
      let got := somes (snd (Bridge.run sched Bridge.fresh)) in
      exists consumed,
        sends sched = consumed ++ Bridge.to_service (Bridge.chan w) /\
        got ++ Bridge.from_service (Bridge.chan w) =
          map Bridge.reply consumed) /\
  (forall w k m rest,
      Cli.remaining w = S k ->
      Cli.message_queue (Cli.chan w) = m :: rest ->
      Cli.response_queue (Cli.chan (Cli.service_step w)) =
      Cli.response_queue (Cli.chan w) ++ pong_reply m) /\
  (forall sched,
      let w := fst (Cli.run sched Cli.fresh) in
      let got := somes (snd (Cli.run sched Cli.fresh)) in
      exists consumed,
        sends sched = consumed ++ Cli.message_queue (Cli.chan w) /\
        got ++ Cli.response_queue (Cli.chan w) =
          flat_map pong_reply consumed) /\
  (forall A B,
      is_stop A = false ->
      Bridge.from_service
        (Bridge.chan
           (fst (Bridge.run [Send A; Send B; Service; Service] Bridge.fresh)))
      = [Bridge.reply A; Bridge.reply B] /\
      Cli.response_queue
        (Cli.chan
           (fst (Cli.run [Send A; Send B; Service; Service] Cli.fresh)))
      = pong_reply A ++ pong_reply B) /\
  snd (Cli.run [Send "ping_1"; Send "ping_2"; Send "stop";
                Service; Service; Service;
                TryRecv; TryRecv; TryRecv; TryRecv] Cli.fresh)
  = [Some "pong_1"; Some "pong_2"; Some "stopped"; None] /\
  (forall k, 3 <= k -> Cli.test_modal_pattern 0 k = true).
Proof.
  split; [|split; [|split; [|split; [|split; [|split]]]]].
  - intros w m rest Ha Hq. rewrite (bridge_step_cmd w m rest Ha Hq).
    reflexivity.
  - intros sched w got.
    destruct (bridge_runs sched) as (consumed & Hs & Hg & _).
    exists consumed. split; [exact Hs | exact Hg].
  - intros w k m rest Hk Hq. rewrite (cli_step_cmd w k m rest Hk Hq).
    reflexivity.
  - intros sched. exact (cli_runs sched).
  - intros A B HA. split.
    + unfold Bridge.run. cbn [exec step fst].
      rewrite (bridge_step_cmd
                 (Bridge.host_send B (Bridge.host_send A Bridge.fresh))
                 A [B] eq_refl eq_refl), HA.
      cbn [negb].
      rewrite bridge_step_cmd with (m := B) (rest := []) by reflexivity.
      reflexivity.
    + unfold Cli.run. cbn [exec step fst].
      rewrite (cli_step_cmd
                 (Cli.host_send B (Cli.host_send A Cli.fresh))
                 2 A [B] eq_refl eq_refl), HA.
      rewrite cli_step_cmd with (k := 1) (m := B) (rest := [])
        by reflexivity.
      reflexivity.
  - reflexivity.
  - intros k Hk. replace k with (3 + (k - 3)) by lia.
    unfold Cli.test_modal_pattern, Cli.run.
    rewrite repeat_app, exec_app.
    cbn [repeat exec step fst snd].
    rewrite (exec_services_dead _ _ _ Cli.live cli_step_over);
      reflexivity.
Qed.

Lemma C4_order_preserved_witness :
  Bridge.from_service
    (Bridge.chan
       (Bridge.service_step (fst (Bridge.run [Send "a"; Send "b"] Bridge.fresh))))
  = ["unknown: a"] /\
  Cli.response_queue
    (Cli.chan
       (Cli.service_step (fst (Cli.run [Send "ping_7"; Send "b"] Cli.fresh))))
  = ["pong_7"] /\
  Cli.response_queue
    (Cli.chan
       (fst (Cli.run [Send "ping_1"; Send "ping_2"; Service; Service]
               Cli.fresh)))
  = ["pong_1"; "pong_2"] /\
  Cli.test_modal_pattern 0 4 = true.
Proof.
  split; [|split; [|split]].
  - exact (proj1 C4_order_preserved
             (fst (Bridge.run [Send "a"; Send "b"] Bridge.fresh)) "a" ["b"]
             eq_refl eq_refl).
  - exact (proj1 (proj2 (proj2 C4_order_preserved))
             (fst (Cli.run [Send "ping_7"; Send "b"] Cli.fresh)) 2 "ping_7"
             ["b"] eq_refl eq_refl).
  - exact (proj2 (proj1 (proj2 (proj2 (proj2 (proj2 C4_order_preserved))))
                    "ping_1" "ping_2" eq_refl)).
  - apply (proj2 (proj2 (proj2 (proj2 (proj2 (proj2 C4_order_preserved)))))).
    lia.
Defined.

(** C5 (faults while handling a command), as amended.  In the operator's
    service and in its copy in the CLI test, when handling a command
    raises, the bare [except] swallows the exception: the command is gone
    from the queue, nothing at all is pushed (no error response), nothing
    else changes, and the loop goes on to its next pass; in the CLI copy
    that pass was one of its three. *)
Theorem C5_fault_swallowed :
  (forall w msg rest e s',
      Modal.alive w = true ->
      Modal._message_queue (Modal.self w) = Some (msg :: rest) ->
      Modal.service_dispatch msg
        (snd (Modal.set_message_queue (Some rest) (Modal.self w)))
      = (Raise e, s') ->
      Modal.service_step w =
      {| Modal.self :=
           {| Modal._timer := Modal._timer (Modal.self w);
              Modal._message_queue := Some rest;
              Modal._response_queue := Modal._response_queue (Modal.self w);
              Modal._counter := Modal._counter (Modal.self w);
              Modal.reports := Modal.reports (Modal.self w) |};
         Modal.alive := true;
         Modal.handler := Modal.handler w |}) /\
  (forall w k msg rest e q',
      Cli.remaining w = S k ->
      Cli.message_queue (Cli.chan w) = msg :: rest ->
      Cli.service_dispatch msg
        {| Cli.message_queue := rest;
           Cli.response_queue := Cli.response_queue (Cli.chan w) |}
      = (Raise e, q') ->
      Cli.service_step w =
      {| Cli.chan :=
           {| Cli.message_queue := rest;
              Cli.response_queue := Cli.response_queue (Cli.chan w) |};
         Cli.remaining := k |}).
Proof.
  split.
  - intros w msg rest e s' Ha Hq Hd.
    exact (modal_step_raise w msg rest e s' Ha Hq Hd).
  - intros w k msg rest e q' Hk Hq Hd.
    exact (cli_step_raise w k msg rest e q' Hk Hq Hd).
Qed.

Lemma C5_fault_swallowed_witness :
  Modal.outq (Modal.service_step (fst (Modal.run [Send "pingpong"] Modal.start)))
  = [] /\
  Cli.service_step (fst (Cli.run [Send "ping"; Send "stop"] Cli.fresh)) =
  {| Cli.chan := {| Cli.message_queue := ["stop"]; Cli.response_queue := [] |};
     Cli.remaining := 2 |}.
Proof.
  split.
  - rewrite (proj1 C5_fault_swallowed
               (fst (Modal.run [Send "pingpong"] Modal.start))
               "pingpong" [] IndexError _ eq_refl eq_refl eq_refl).
    reflexivity.
  - exact (proj2 C5_fault_swallowed
             (fst (Cli.run [Send "ping"; Send "stop"] Cli.fresh))
             2 "ping" ["stop"] IndexError _ eq_refl eq_refl eq_refl).
Defined.

(** C5 as stated fails: handling ["ping"] in the operator's service
    raises [IndexError], and the thread's turn leaves the response queue
    empty: no error response reaches the host. *)
Lemma C5_counterexample :
  let w := fst (Modal.run [Send "ping"] Modal.start) in
  fst (Modal.service_dispatch "ping"
         (snd (Modal.set_message_queue (Some []) (Modal.self w))))
  = Raise IndexError /\
  Modal.alive w = true /\ Modal.inq w = ["ping"] /\ Modal.outq w = [] /\
  Modal.inq (Modal.service_step w) = [] /\
  Modal.outq (Modal.service_step w) = [] /\
  snd (Modal.run [Send "ping"; Service; TryRecv] Modal.start) = [None].
Proof. cbv zeta. repeat split. Qed.

(** C9 (a bare ["ping"] in the prefix-matching service).  In the
    operator's service and its CLI copy, handling the command ["ping"]
    raises [IndexError] at the suffix extraction; the bare [except]
    catches it, so the thread's turn takes ["ping"] off the queue, pushes
    nothing, changes nothing else and stays in its loop. *)
Theorem C9_bare_ping_unanswered :
  (forall w rest rq,
      Modal.alive w = true ->
      Modal._message_queue (Modal.self w) = Some ("ping" :: rest) ->
      Modal._response_queue (Modal.self w) = Some rq ->
      fst (Modal.service_dispatch "ping"
             (snd (Modal.set_message_queue (Some rest) (Modal.self w))))
      = Raise IndexError /\
      Modal.service_step w =
      {| Modal.self :=
           {| Modal._timer := Modal._timer (Modal.self w);
              Modal._message_queue := Some rest;
              Modal._response_queue := Some rq;
              Modal._counter := Modal._counter (Modal.self w);
              Modal.reports := Modal.reports (Modal.self w) |};
         Modal.alive := true;
         Modal.handler := Modal.handler w |}) /\
  (forall w k rest,
      Cli.remaining w = S k ->
      Cli.message_queue (Cli.chan w) = "ping" :: rest ->
      fst (Cli.service_dispatch "ping"
             {| Cli.message_queue := rest;
                Cli.response_queue := Cli.response_queue (Cli.chan w) |})
      = Raise IndexError /\
      Cli.service_step w =
      {| Cli.chan :=
           {| Cli.message_queue := rest;
              Cli.response_queue := Cli.response_queue (Cli.chan w) |};
         Cli.remaining := k |}).
Proof.
  split.
  - intros w rest rq Ha Hm Hr. split.
    + destruct w as [[t mq rq' c rep] a h]. cbn in *.
      inversion Hr; subst. reflexivity.
    + rewrite (modal_step_cmd w "ping" rest rq Ha Hm Hr).
      cbn. rewrite app_nil_r. reflexivity.
  - intros w k rest Hk Hq. split.
    + reflexivity.
    + rewrite (cli_step_cmd w k "ping" rest Hk Hq). cbn.
      rewrite app_nil_r. reflexivity.
Qed.

Lemma C9_bare_ping_unanswered_witness :
  Modal.outq
    (Modal.service_step
       (fst (Modal.run [Send "ping_1"; Service; Send "ping"] Modal.start)))
  = ["pong_1"] /\
  Cli.service_step (fst (Cli.run [Send "ping"] Cli.fresh)) =
  {| Cli.chan := {| Cli.message_queue := []; Cli.response_queue := [] |};
     Cli.remaining := 2 |}.
Proof.
  split.
  - rewrite (proj2 (proj1 C9_bare_ping_unanswered
               (fst (Modal.run [Send "ping_1"; Service; Send "ping"]
                       Modal.start))
               [] ["pong_1"] eq_refl eq_refl eq_refl)).
    reflexivity.
  - exact (proj2 (proj2 C9_bare_ping_unanswered
             (fst (Cli.run [Send "ping"] Cli.fresh)) 2 [] eq_refl eq_refl)).
Defined.

(** C6 (response handling on a tick), as amended.  On every [TIMER]
    tick the poll loop takes at most one response: if the response queue
    exists and is not empty, exactly its oldest response is removed and
    reported, and the others stay queued for later ticks; otherwise
    nothing is taken.  This comes before the tick-based send policy: the
    report of the response precedes the report of the ping sent in the
    same tick. *)
Theorem C6_one_response_per_tick : forall s,
  let s' := snd (Modal.modal Modal.TIMER s) in
  let c := (Modal._counter s + 1)%Z in
  let ping := if (c mod 10 =? 0)%Z then [("ping_" ++ Py.str (c / 10))%string]
              else [] in
  Modal._response_queue s' =
    match Modal._response_queue s with
    | Some (_ :: rest) => Some rest
    | Some [] => Some []
    | None => None
    end /\
  Modal.reports s' =
    Modal.reports s
      ++ match Modal._response_queue s with
         | Some (r :: _) => [("Received: " ++ r)%string]
         | _ => []
         end
      ++ (if Modal.truthy (Modal._message_queue s)
          then map (fun p => ("Sent: " ++ p)%string) ping else []).
Proof.
  intros s. cbv zeta. rewrite modal_timer. cbn [snd].
  cbn [Modal._response_queue Modal.reports]. split; [|reflexivity].
  destruct (Modal._response_queue s) as [[|r rq]|]; reflexivity.
Qed.

(** C6 as stated fails: when the thread answers two pings between two
    ticks, the next tick takes ["pong_1"] only and leaves ["pong_2"] in
    the response queue. *)
Lemma C6_counterexample :
  let before :=
    fst (Modal.drive (repeat (Modal.Event Modal.TIMER) 20
                        ++ [Modal.Thread; Modal.Thread]) Modal.start) in
  let after := fst (Modal.deliver Modal.TIMER before) in
  Modal.outq before = ["pong_1"; "pong_2"] /\
  Modal.outq after = ["pong_2"] /\
  Modal.reports (Modal.self after) =
    Modal.reports (Modal.self before) ++ ["Received: pong_1"].
Proof. cbv zeta. vm_compute. repeat split. Qed.

(** C7 (reaching Finished), as amended.  A [TIMER] tick returns
    [FINISHED] exactly when it brings the counter to 50 or beyond, and it
    puts ["stop"] on the message queue in that very tick, as the last
    thing it sends; there is no intermediate state: along every run from
    [execute] the handler is installed exactly while the counter is below
    50, while it is installed the thread is alive and no ["stop"] is
    queued (none has been sent), and the poll loop never reports having
    received ["stopped"], neither before nor after finishing.  Once the handler is removed, an event reaches the
    operator no more. *)
Theorem C7_finishes_on_stop_tick :
  (forall s,
      fst (Modal.modal Modal.TIMER s) =
      Return (if (50 <=? Modal._counter s + 1)%Z
              then Modal.FINISHED else Modal.PASS_THROUGH)) /\
  (forall s mq,
      Modal._message_queue s = Some mq ->
      fst (Modal.modal Modal.TIMER s) = Return Modal.FINISHED ->
      exists ping,
        Modal._message_queue (snd (Modal.modal Modal.TIMER s)) =
        Some (mq ++ ping ++ ["stop"])) /\
  (forall ins,
      let w := fst (Modal.drive ins Modal.start) in
      Modal.handler w = (Modal._counter (Modal.self w) <? 50)%Z /\
      (Modal.handler w = true ->
       Modal.alive w = true /\ ~ In "stop" (Modal.inq w)) /\
      ~ In "Received: stopped" (Modal.reports (Modal.self w))) /\
  (forall w ev, Modal.handler w = false -> Modal.deliver ev w = (w, [])).
Proof.
  split; [|split; [|split]].
  - intros s. rewrite modal_timer. cbn [fst]. rewrite Z.geb_leb.
    reflexivity.
  - intros s mq Hm. rewrite modal_timer. cbn [fst snd Modal._message_queue].
    rewrite Hm. cbn [option_map]. intros Hf.
    destruct (Modal._counter s + 1 >=? 50)%Z; [|discriminate].
    eexists. reflexivity.
  - intros ins w.
    destruct (drive_unacknowledged ins Modal.start start_unacknowledged)
      as (_ & Hh & Hrep & Hq).
    fold w in Hh, Hrep, Hq. split; [exact Hh|]. split; [|exact Hrep].
    intros H. destruct (Hq H) as (Ha & Hs & _). split; assumption.
  - intros w ev H. apply deliver_unhandled. exact H.
Qed.

Lemma C7_finishes_on_stop_tick_witness :
  Modal.deliver Modal.TIMER
    (fst (Modal.drive (repeat (Modal.Event Modal.TIMER) 50) Modal.start))
  = (fst (Modal.drive (repeat (Modal.Event Modal.TIMER) 50) Modal.start), [])
  /\
  (exists ping,
      Modal._message_queue
        (snd (Modal.modal Modal.TIMER
                (Modal.self
                   (fst (Modal.drive (repeat (Modal.Event Modal.TIMER) 49)
                           Modal.start))))) =
      Some (["ping_1"; "ping_2"; "ping_3"; "ping_4"] ++ ping ++ ["stop"])).
Proof.
  split.
  - apply (proj2 (proj2 (proj2 C7_finishes_on_stop_tick))). reflexivity.
  - apply (proj1 (proj2 C7_finishes_on_stop_tick)); reflexivity.
Defined.

(** C7 as stated fails: the 50th tick after [execute] returns
    [FINISHED] although no ["stop"] had been sent before that tick, no
    tick follows the send, and ["stopped"] was never received; with the
    thread running along, ["stopped"] ends up in the response queue,
    unobserved. *)
Lemma C7_counterexample :
  let before :=
    fst (Modal.drive (repeat (Modal.Event Modal.TIMER) 49) Modal.start) in
  let after := Modal.deliver Modal.TIMER before in
  let along :=
    fst (Modal.drive
           (flat_map (fun _ => [Modal.Event Modal.TIMER; Modal.Thread])
              (repeat tt 50) ++ [Modal.Thread])
           Modal.start) in
  snd after = [Modal.FINISHED] /\
  Modal.inq before = ["ping_1"; "ping_2"; "ping_3"; "ping_4"] /\
  Modal.inq (fst after) =
    ["ping_1"; "ping_2"; "ping_3"; "ping_4"; "ping_5"; "stop"] /\
  Modal.reports (Modal.self (fst after)) =
    ["Started modal operator simulation"; "Sent: ping_1"; "Sent: ping_2";
     "Sent: ping_3"; "Sent: ping_4"; "Sent: ping_5"] /\
  Modal.handler along = false /\
  Modal.outq along = ["pong_5"; "stopped"] /\
  Modal.reports (Modal.self along) =
    ["Started modal operator simulation";
     "Sent: ping_1"; "Received: pong_1"; "Sent: ping_2"; "Received: pong_2";
     "Sent: ping_3"; "Received: pong_3"; "Sent: ping_4"; "Received: pong_4";
     "Sent: ping_5"].
Proof. cbv zeta. vm_compute. repeat split. Qed.

(** With nothing arriving while it waits, the timed [get] of the
    service is the untimed one of [Bridge], time apart. *)
Lemma waiting_erased q :
  Bridge.to_service_get q =
  (fst (fst (Waiting.to_service_get None q)),
   snd (fst (Waiting.to_service_get None q))).
Proof.
  destruct q as [[|m ts] fs]; reflexivity.
Qed.

(** C8 (non-blocking receive).  [try_recv_response] never raises and
    never waits: on an empty response queue it returns [None] and
    leaves the queues as they are, otherwise it returns the oldest
    response and removes just that one; and the call takes no time at
    all, whatever a producer is about to put on the queue and however
    soon.  This is a property of [get_nowait], not of every receive: the
    [get(timeout=1)] of the service, called on an empty queue, waits for
    the item that comes within the second and waits the whole second
    before it raises [queue.Empty] when none does. *)
Theorem C8_try_recv_nonblocking : forall q,
  (exists r q', Bridge.try_recv_response q = (Return r, q')) /\
  Bridge.try_recv_response q =
  match Bridge.from_service q with
  | [] => (Return None, q)
  | response :: rest =>
      (Return (Some response),
       {| Bridge.to_service := Bridge.to_service q;
          Bridge.from_service := rest |})
  end /\
  (forall next,
      Waiting.try_recv_response next q =
      (fst (Bridge.try_recv_response q),
       snd (Bridge.try_recv_response q), 0)) /\
  (Bridge.from_service q = [] ->
   forall next, Waiting.try_recv_response next q = (Return None, q, 0)) /\
  (Bridge.to_service q = [] ->
   Waiting.to_service_get None q = (Raise Empty, q, 1000) /\
   forall delay item,
     Waiting.to_service_get (Some (delay, item)) q =
     if (delay <=? 1000)%nat then (Return item, q, delay)
     else (Raise Empty, q, 1000)).
Proof.
  intros [ts fs].
  unfold Bridge.try_recv_response, Bridge.from_service_get_nowait,
    Waiting.try_recv_response, Waiting.to_service_get, Waiting.get.
  py_unfold. cbn [Bridge.to_service Bridge.from_service].
  split; [|split; [|split; [|split]]].
  - destruct fs as [|r rest]; eauto.
  - destruct fs as [|r rest]; reflexivity.
  - intros next. destruct fs as [|r rest]; reflexivity.
  - intros -> next. reflexivity.
  - intros ->. split; [reflexivity|].
    intros delay item. destruct (delay <=? 1000)%nat; reflexivity.
Qed.

(** C10 (frame of the timer callback).  On an event whose type is not
    ["TIMER"], [modal] returns [PASS_THROUGH] and leaves the operator as
    it was: counter, both queues, timer and reports. *)
Theorem C10_non_timer_passthrough : forall ev s,
  Modal.type ev <> "TIMER" ->
  Modal.modal ev s = (Return Modal.PASS_THROUGH, s).
Proof.
  intros ev s H. apply modal_other. apply String.eqb_neq. exact H.
Qed.

Lemma C10_non_timer_passthrough_witness :
  Modal.modal {| Modal.type := "MOUSEMOVE" |}
    (Modal.self (fst (Modal.drive [Modal.Event Modal.TIMER; Modal.Thread]
                        Modal.start)))
  = (Return Modal.PASS_THROUGH,
     Modal.self (fst (Modal.drive [Modal.Event Modal.TIMER; Modal.Thread]
                        Modal.start))).
Proof.
  apply (C10_non_timer_passthrough {| Modal.type := "MOUSEMOVE" |}).
  cbn. discriminate.
Defined.

(** * Further properties of the code *)

(** ** The timer callback and the thread, on any operator state *)

(** [modal] never raises, whatever the event and the state of the
    operator: it returns [FINISHED] or [PASS_THROUGH], leaves the timer
    alone and moves the counter by at most one.  On an operator whose
    queues are both [None] (no [execute] yet) a [TIMER] tick only
    advances the counter: nothing is sent, received or reported, and the
    tick that reaches 50 still returns [FINISHED]. *)
Theorem modal_never_raises :
  (forall ev s,
      exists r s',
        Modal.modal ev s = (Return r, s') /\
        (r = Modal.FINISHED \/ r = Modal.PASS_THROUGH) /\
        Modal._timer s' = Modal._timer s /\
        (Modal._counter s <= Modal._counter s' <= Modal._counter s + 1)%Z) /\
  (forall s,
      Modal._message_queue s = None -> Modal._response_queue s = None ->
      Modal.modal Modal.TIMER s =
      (Return (if (50 <=? Modal._counter s + 1)%Z
               then Modal.FINISHED else Modal.PASS_THROUGH),
       {| Modal._timer := Modal._timer s;
          Modal._message_queue := None;
          Modal._response_queue := None;
          Modal._counter := Modal._counter s + 1;
          Modal.reports := Modal.reports s |})).
Proof.
  split.
  - intros ev s. destruct (Modal.type ev =? "TIMER")%string eqn:Et.
    + apply event_is_timer in Et. subst ev. rewrite modal_timer.
      eexists. eexists. split; [reflexivity|].
      cbn [Modal._timer Modal._counter]. repeat split; try lia.
      destruct (_ >=? 50)%Z; auto.
    + rewrite (modal_other ev s Et). exists Modal.PASS_THROUGH, s.
      repeat split; auto; lia.
  - intros s Hm Hr. rewrite modal_timer, Hm, Hr. cbn.
    rewrite Z.geb_leb, app_nil_r. reflexivity.
Qed.

Lemma modal_never_raises_witness :
  Modal.modal Modal.TIMER Modal.initial =
  (Return Modal.PASS_THROUGH,
   {| Modal._timer := None; Modal._message_queue := None;
      Modal._response_queue := None; Modal._counter := 1;
      Modal.reports := [] |}).
Proof.
  exact (proj2 modal_never_raises Modal.initial eq_refl eq_refl).
Defined.

Ltac modal_thread_cases w :=
  destruct w as [[t mq rq c rep] a h];
  destruct a; [|try (cbn; intuition congruence)];
  destruct mq as [[|m mq]|]; destruct rq as [rq|];
  unfold Modal.service_step, Modal.service_body, Modal.service_dispatch,
    Modal.message_queue_get, Modal.response_queue_put, Modal.attr,
    Modal.set_message_queue, Modal.set_response_queue, Modal.inq, Modal.outq;
  py_unfold;
  cbn [Modal.self Modal.alive Modal.handler Modal._message_queue
       Modal._response_queue Modal._counter Modal.reports Modal._timer
       Modal.truthy];
  try destruct (Py.startswith m "ping");
  try destruct (nth_error (Py.split m "_") 1);
  try destruct (String.eqb_spec m "stop");
  cbn [Modal.self Modal.alive Modal.handler Modal._message_queue
       Modal._response_queue Modal._counter Modal.reports Modal._timer
       Modal.truthy fst snd].

(** The thread of the operator touches nothing but the two queues: the
    counter, the reports, the timer and the handler are as they were
    after each of its turns, in any state; a turn takes at most the
    oldest command and appends at most one response, and none without
    having taken a command. *)
Theorem service_thread_frame : forall w,
  let w' := Modal.service_step w in
  Modal._counter (Modal.self w') = Modal._counter (Modal.self w) /\
  Modal.reports (Modal.self w') = Modal.reports (Modal.self w) /\
  Modal._timer (Modal.self w') = Modal._timer (Modal.self w) /\
  Modal.handler w' = Modal.handler w /\
  exists taken pushed,
    Modal.inq w = taken ++ Modal.inq w' /\
    Modal.outq w' = Modal.outq w ++ pushed /\
    length pushed <= length taken <= 1.
Proof.
  intros w. cbv zeta.
  modal_thread_cases w; repeat split;
    first [ exists [], []; cbn; rewrite ?app_nil_r; repeat split; lia
          | exists [m], []; cbn; rewrite ?app_nil_r; repeat split; lia
          | eexists [m], [_]; cbn; repeat split; lia ].
Qed.

(** The thread of the operator never ends by an exception: a turn ends
    it only if it took ["stop"] and pushed ["stopped"].  When the
    response queue is [None], ["stop"] is taken all the same and the
    thread goes on. *)
Theorem service_thread_ends_on_stop :
  (forall w,
      Modal.alive w = true ->
      Modal.alive (Modal.service_step w) = false ->
      exists rest rq,
        Modal._message_queue (Modal.self w) = Some ("stop" :: rest) /\
        Modal._response_queue (Modal.self w) = Some rq /\
        Modal._message_queue (Modal.self (Modal.service_step w)) = Some rest /\
        Modal._response_queue (Modal.self (Modal.service_step w)) =
          Some (rq ++ ["stopped"])) /\
  (forall w rest,
      Modal.alive w = true ->
      Modal._message_queue (Modal.self w) = Some ("stop" :: rest) ->
      Modal._response_queue (Modal.self w) = None ->
      Modal.alive (Modal.service_step w) = true /\
      Modal._message_queue (Modal.self (Modal.service_step w)) = Some rest /\
      Modal._response_queue (Modal.self (Modal.service_step w)) = None).
Proof.
  split.
  - intros w. modal_thread_cases w; intros Ha Hd; try discriminate;
      subst m; do 2 eexists; repeat split.
  - intros w rest Ha Hm Hr. destruct w as [[t mq rq c rep] a h].
    cbn in Ha, Hm, Hr. subst. cbn. auto.
Qed.

Lemma service_thread_ends_on_stop_witness :
  (exists rest rq,
      Modal._message_queue
        (Modal.self (fst (Modal.run [Send "stop"; Send "ping_1"] Modal.start)))
      = Some ("stop" :: rest) /\
      Modal._response_queue
        (Modal.self (fst (Modal.run [Send "stop"; Send "ping_1"] Modal.start)))
      = Some rq /\
      Modal._message_queue
        (Modal.self
           (Modal.service_step
              (fst (Modal.run [Send "stop"; Send "ping_1"] Modal.start))))
      = Some rest /\
      Modal._response_queue
        (Modal.self
           (Modal.service_step
              (fst (Modal.run [Send "stop"; Send "ping_1"] Modal.start))))
      = Some (rq ++ ["stopped"])) /\
  Modal.alive
    (Modal.service_step
       {| Modal.self :=
            {| Modal._timer := None;
               Modal._message_queue := Some ["stop"];
               Modal._response_queue := None;
               Modal._counter := 0; Modal.reports := [] |};
          Modal.alive := true; Modal.handler := false |}) = true.
Proof.
  split.
  - apply (proj1 service_thread_ends_on_stop); reflexivity.
  - apply (proj2 service_thread_ends_on_stop _ []); reflexivity.
Defined.

(** How the thread of [simulated_async_service] ends, its [print]
    included.  A turn of the live thread on an empty queue changes
    nothing.  On a command whose [print] the stream takes, the turn is
    the one of [Bridge.service_step]: the reply is pushed and the thread
    ends exactly on ["stop"].  On a command whose [print] raises, the
    [except queue.Empty] does not catch the exception: the command is
    gone from the queue, nothing is pushed, and the thread is over.  So
    the thread ends exactly when it takes ["stop"] or a command it
    cannot print. *)
Theorem bridge_thread_ends_on_stop_or_print : forall stdout w,
  Bridge.alive w = true ->
  let w' := Printing.service_step stdout w in
  match Bridge.to_service (Bridge.chan w) with
  | [] => w' = w
  | m :: rest =>
      if stdout ("Service received: " ++ m)%string
      then w' = Bridge.service_step w /\
           w' = {| Bridge.chan :=
                     {| Bridge.to_service := rest;
                        Bridge.from_service :=
                          Bridge.from_service (Bridge.chan w)
                            ++ [Bridge.reply m] |};
                   Bridge.alive := negb (is_stop m) |}
      else w' = {| Bridge.chan :=
                     {| Bridge.to_service := rest;
                        Bridge.from_service :=
                          Bridge.from_service (Bridge.chan w) |};
                   Bridge.alive := false |}
  end /\
  (Bridge.alive w' = false <->
   exists m rest,
     Bridge.to_service (Bridge.chan w) = m :: rest /\
     (m = "stop" \/ stdout ("Service received: " ++ m)%string = false)).
Proof.
  intros stdout w Ha. cbv zeta.
  destruct w as [[ts fs] a]. cbn in Ha. subst a.
  cbn [Bridge.chan Bridge.to_service Bridge.from_service].
  destruct ts as [|m rest].
  - split; [reflexivity|]. cbn. split; [discriminate|].
    intros (m & rest & H & _). discriminate.
  - assert (Hstep :
      Printing.service_step stdout
        {| Bridge.chan := {| Bridge.to_service := m :: rest;
                             Bridge.from_service := fs |};
           Bridge.alive := true |} =
      if stdout ("Service received: " ++ m)%string
      then {| Bridge.chan :=
                {| Bridge.to_service := rest;
                   Bridge.from_service := fs ++ [Bridge.reply m] |};
              Bridge.alive := negb (is_stop m) |}
      else {| Bridge.chan :=
                {| Bridge.to_service := rest; Bridge.from_service := fs |};
              Bridge.alive := false |}).
    { unfold Printing.service_step, Printing.simulated_async_service_body,
        Printing.print, Bridge.to_service_get, Bridge.from_service_put,
        Bridge.reply, is_stop.
      py_unfold. cbn [Bridge.alive Bridge.chan Bridge.to_service
                      Bridge.from_service].
      destruct (stdout ("Service received: " ++ m)%string); [|reflexivity].
      destruct (String.eqb_spec m "ping") as [-> | Hp]; [reflexivity|].
      destruct (String.eqb_spec m "stop") as [-> | Hs]; reflexivity. }
    rewrite Hstep.
    destruct (stdout ("Service received: " ++ m)%string) eqn:Eo.
    + split.
      * split; [|reflexivity].
        rewrite bridge_step_cmd with (m := m) (rest := rest)
          by reflexivity.
        reflexivity.
      * cbn [Bridge.alive]. unfold is_stop.
        destruct (String.eqb_spec m "stop") as [-> | Hs]; cbn [negb].
        -- split; [|reflexivity]. intros _. exists "stop"%string, rest. auto.
        -- split; [discriminate|].
           intros (m' & rest' & H & [-> | Hf]); inversion H; subst;
             congruence.
    + split; [reflexivity|]. cbn [Bridge.alive].
      split; [|reflexivity]. intros _. exists m, rest. auto.
Qed.

Lemma bridge_thread_ends_on_stop_or_print_witness :
  Printing.service_step (fun text => negb (text =? "Service received: xyz")%string)
    (fst (Bridge.run [Send "xyz"; Send "ping"] Bridge.fresh))
  = {| Bridge.chan := {| Bridge.to_service := ["ping"];
                         Bridge.from_service := [] |};
       Bridge.alive := false |} /\
  Printing.service_step (fun _ => true)
    (fst (Bridge.run [Send "xyz"; Send "ping"] Bridge.fresh))
  = Bridge.service_step (fst (Bridge.run [Send "xyz"; Send "ping"] Bridge.fresh)).
Proof.
  split.
  - exact (proj1 (bridge_thread_ends_on_stop_or_print
                    (fun text => negb (text =? "Service received: xyz")%string)
                    (fst (Bridge.run [Send "xyz"; Send "ping"] Bridge.fresh))
                    eq_refl)).
  - exact (proj1 (proj1 (bridge_thread_ends_on_stop_or_print
                    (fun _ => true)
                    (fst (Bridge.run [Send "xyz"; Send "ping"] Bridge.fresh))
                    eq_refl))).
Defined.

(** ** The poll loop over its fifty ticks *)

Lemma deliver_timer w :
  Modal.handler w = true ->
  Modal.deliver Modal.TIMER w =
  ({| Modal.self := snd (Modal.modal Modal.TIMER (Modal.self w));
      Modal.alive := Modal.alive w;
      Modal.handler := negb (Modal._counter (Modal.self w) + 1 >=? 50)%Z |},
   [if (Modal._counter (Modal.self w) + 1 >=? 50)%Z
    then Modal.FINISHED else Modal.PASS_THROUGH]).
Proof.
  intros H. unfold Modal.deliver. rewrite H, modal_timer. cbn [snd].
  destruct (_ >=? 50)%Z; reflexivity.
Qed.

Lemma deliver_other ev w :
  Modal.handler w = true -> (Modal.type ev =? "TIMER")%string = false ->
  Modal.deliver ev w = (w, [Modal.PASS_THROUGH]).
Proof.
  intros H Et. unfold Modal.deliver. rewrite H, (modal_other ev _ Et).
  destruct w as [s a h]. cbn in *. subst. reflexivity.
Qed.

Lemma ticks_cons i ins :
  ticks (i :: ins) =
  (match i with
   | Modal.Event ev => if (Modal.type ev =? "TIMER")%string then 1 else 0
   | Modal.Thread => 0
   end + ticks ins)%nat.
Proof.
  unfold ticks. cbn [filter]. destruct i as [ev|]; [|reflexivity].
  destruct (Modal.type ev =? "TIMER")%string; reflexivity.
Qed.

Lemma drive_counter ins : forall w,
  Modal.handler w = (Modal._counter (Modal.self w) <? 50)%Z ->
  (Modal._counter (Modal.self w) <= 50)%Z ->
  let w' := fst (Modal.drive ins w) in
  let c := Modal._counter (Modal.self w) in
  Modal._counter (Modal.self w') = Z.min 50 (c + Z.of_nat (ticks ins)) /\
  Modal.handler w' = (c + Z.of_nat (ticks ins) <? 50)%Z /\
  (In Modal.FINISHED (snd (Modal.drive ins w)) <->
   (c < 50 <= c + Z.of_nat (ticks ins))%Z) /\
  (forall r, In r (snd (Modal.drive ins w)) ->
             r = Modal.FINISHED \/ r = Modal.PASS_THROUGH).
Proof.
  induction ins as [|i ins IH]; intros w Hh Hc; cbv zeta.
  - cbn. rewrite Z.add_0_r. repeat split; try lia; try tauto.
  - rewrite ticks_cons. cbn [Modal.drive]. destruct i as [ev|].
    + destruct (Modal.handler w) eqn:Eh.
      * symmetry in Hh. apply Z.ltb_lt in Hh.
        destruct (Modal.type ev =? "TIMER")%string eqn:Et.
        -- apply event_is_timer in Et. subst ev.
           rewrite (deliver_timer w Eh).
           set (w1 := {| Modal.self := snd (Modal.modal Modal.TIMER (Modal.self w));
                         Modal.alive := Modal.alive w;
                         Modal.handler :=
                           negb (Modal._counter (Modal.self w) + 1 >=? 50)%Z |}).
           assert (Hc1 : Modal._counter (Modal.self w1)
                         = (Modal._counter (Modal.self w) + 1)%Z).
           { unfold w1. cbn [Modal.self]. rewrite modal_timer. reflexivity. }
           assert (Hh1 : Modal.handler w1
                         = (Modal._counter (Modal.self w1) <? 50)%Z).
           { rewrite Hc1. unfold w1. cbn [Modal.handler].
             rewrite Z.geb_leb.
             destruct (Z.leb_spec 50 (Modal._counter (Modal.self w) + 1));
               destruct (Z.ltb_spec (Modal._counter (Modal.self w) + 1) 50);
               cbn; try reflexivity; lia. }
           specialize (IH w1 Hh1 ltac:(lia)). cbv zeta in IH.
           destruct (Modal.drive ins w1) as [w2 r2]. cbn [fst snd] in *.
           rewrite Hc1 in IH. destruct IH as (IH1 & IH2 & IH3 & IH4).
           replace (Modal._counter (Modal.self w)
                    + Z.of_nat (1 + ticks ins))%Z
             with (Modal._counter (Modal.self w) + 1
                   + Z.of_nat (ticks ins))%Z by lia.
           split; [exact IH1|]. split; [exact IH2|]. split.
           ++ rewrite Z.geb_leb.
              destruct (Z.leb_spec 50 (Modal._counter (Modal.self w) + 1)).
              ** split; [intros _; lia | intros _; left; reflexivity].
              ** split.
                 --- intros [Hd | Hin]; [discriminate|].
                     apply IH3 in Hin. lia.
                 --- intros Hb. right. apply IH3. lia.
           ++ intros r [<- | Hin]; [|exact (IH4 r Hin)].
              destruct (_ >=? 50)%Z; auto.
        -- rewrite (deliver_other ev w Eh Et).
           specialize (IH w ltac:(rewrite Eh; symmetry; apply Z.ltb_lt; lia) Hc).
           cbv zeta in IH.
           destruct (Modal.drive ins w) as [w2 r2]. cbn [fst snd] in *.
           destruct IH as (IH1 & IH2 & IH3 & IH4).
           cbn [Nat.add]. split; [exact IH1|]. split; [exact IH2|]. split.
           ++ split.
              ** intros [Hd | Hin]; [discriminate|]. apply IH3. exact Hin.
              ** intros Hb. right. apply IH3. exact Hb.
           ++ intros r [<- | Hin]; [auto | exact (IH4 r Hin)].
      * rewrite (deliver_unhandled ev w Eh).
        pose proof Hh as Hh'. symmetry in Hh'. apply Z.ltb_ge in Hh'.
        specialize (IH w ltac:(rewrite Eh; exact Hh) Hc). cbv zeta in IH.
        destruct (Modal.drive ins w) as [w2 r2]. cbn [fst snd app] in *.
        destruct IH as (IH1 & IH2 & IH3 & IH4).
        split; [lia|]. split.
        { rewrite IH2. destruct (Z.ltb_spec
            (Modal._counter (Modal.self w) + Z.of_nat (ticks ins)) 50);
          destruct (Z.ltb_spec
            (Modal._counter (Modal.self w)
             + Z.of_nat ((if (Modal.type ev =? "TIMER")%string then 1 else 0)
                         + ticks ins)) 50); try reflexivity; lia. }
        split; [|exact IH4].
        split; [intros Hin; apply IH3 in Hin; lia | intros Hb; lia].
    + pose proof (service_thread_frame w) as (Hf1 & _ & _ & Hf2 & _).
      specialize (IH (Modal.service_step w)
                    ltac:(rewrite Hf2, Hf1; exact Hh)
                    ltac:(rewrite Hf1; exact Hc)).
      cbv zeta in IH. rewrite Hf1 in IH. cbn [Nat.add]. exact IH.
Qed.

(** The poll loop processes exactly the first fifty timer ticks after
    [execute], however they are interleaved with other events and with
    the thread's turns: the counter shows the number of ticks so far,
    capped at 50; the handler is installed exactly until the 50th tick;
    [modal] has returned [FINISHED] exactly when 50 ticks have come, and
    otherwise only ever [PASS_THROUGH]. *)
Theorem poll_loop_counts_fifty_ticks : forall ins,
  let w := fst (Modal.drive ins Modal.start) in
  Modal._counter (Modal.self w) = Z.min 50 (Z.of_nat (ticks ins)) /\
  Modal.handler w = (Z.of_nat (ticks ins) <? 50)%Z /\
  (In Modal.FINISHED (snd (Modal.drive ins Modal.start)) <->
   50 <= ticks ins) /\
  (forall r, In r (snd (Modal.drive ins Modal.start)) ->
             r = Modal.FINISHED \/ r = Modal.PASS_THROUGH).
Proof.
  intros ins.
  destruct (drive_counter ins Modal.start eq_refl ltac:(cbn; lia))
    as (H1 & H2 & H3 & H4).
  cbv zeta in *.
  change (Modal._counter (Modal.self Modal.start)) with 0%Z in *.
  rewrite Z.add_0_l in *. split; [exact H1|]. split; [exact H2|].
  split; [|exact H4]. rewrite H3. lia.
Qed.

(** ** The operator and its thread together *)

Lemma substring_all s : substring 0 (String.length s) s = s.
Proof. induction s as [|c s IH]; cbn; [reflexivity | rewrite IH; reflexivity]. Qed.

Lemma received_reports t mq rq c rep extra :
  received {| Modal._timer := t; Modal._message_queue := mq;
              Modal._response_queue := rq; Modal._counter := c;
              Modal.reports := rep ++ extra |}
  = received {| Modal._timer := t; Modal._message_queue := mq;
                Modal._response_queue := rq; Modal._counter := c;
                Modal.reports := rep |}
    ++ received {| Modal._timer := t; Modal._message_queue := mq;
                   Modal._response_queue := rq; Modal._counter := c;
                   Modal.reports := extra |}.
Proof. unfold received. cbn [Modal.reports]. apply flat_map_app. Qed.

Lemma commands_sent_step c :
  (0 <= c < 50)%Z ->
  commands_sent (c + 1) =
  commands_sent c
    ++ (if ((c + 1) mod 10 =? 0)%Z
        then [("ping_" ++ Py.str ((c + 1) / 10))%string] else [])
    ++ (if (c + 1 >=? 50)%Z then ["stop"] else []).
Proof.
  intros Hc. unfold commands_sent.
  destruct (Z.leb_spec 50 c); [lia|]. rewrite app_nil_r, Z.geb_leb.
  destruct (Z.eqb_spec ((c + 1) mod 10) 0) as [Hm | Hm].
  - assert (Hd : ((c + 1) / 10 = c / 10 + 1)%Z).
    { Z.to_euclidean_division_equations. lia. }
    assert (Hn : (0 <= c / 10)%Z).
    { Z.to_euclidean_division_equations. lia. }
    rewrite Hd, Z2Nat.inj_add by lia.
    change (Z.to_nat 1) with 1. rewrite Nat.add_1_r, seq_S, map_app.
    cbn [map]. rewrite <- app_assoc. cbn [app].
    replace (Z.of_nat (1 + Z.to_nat (c / 10))) with (c / 10 + 1)%Z by lia.
    reflexivity.
  - assert (Hd : ((c + 1) / 10 = c / 10)%Z).
    { Z.to_euclidean_division_equations. lia. }
    rewrite Hd. reflexivity.
Qed.

Lemma deliver_scenario ev w : scenario w -> scenario (fst (Modal.deliver ev w)).
Proof.
  intros Hinv. pose proof Hinv as (Hw & Hc & Hh & consumed & Hsent & Hgot).
  destruct (Modal.handler w) eqn:Eh;
    [|rewrite (deliver_unhandled ev w Eh); exact Hinv].
  destruct (Modal.type ev =? "TIMER")%string eqn:Et;
    [|rewrite (deliver_other ev w Eh Et); exact Hinv].
  apply event_is_timer in Et. subst ev. rewrite (deliver_timer w Eh).
  cbn [fst]. rewrite modal_timer. cbn [snd].
  symmetry in Hh. apply Z.ltb_lt in Hh.
  destruct (wired_queues w Hw) as (mq & rq & Hm & Hr).
  unfold Modal.inq, Modal.outq in Hsent, Hgot. rewrite Hm in Hsent.
  rewrite Hr in Hgot.
  unfold scenario, Modal.wired, Modal.inq, Modal.outq.
  cbn [Modal.self Modal.handler Modal._counter Modal._message_queue
       Modal._response_queue].
  rewrite Hm, Hr. cbn [option_map Modal.truthy].
  split; [split; reflexivity|]. split; [lia|]. split.
  - rewrite Z.geb_leb.
    destruct (Z.leb_spec 50 (Modal._counter (Modal.self w) + 1));
      destruct (Z.ltb_spec (Modal._counter (Modal.self w) + 1) 50);
      cbn; try reflexivity; lia.
  - exists consumed. split.
    + rewrite commands_sent_step by lia. rewrite Hsent, <- app_assoc.
      reflexivity.
    + rewrite <- Hgot. destruct w as [[t mq0 rq0 c rep] a h].
      cbn [Modal.self Modal._timer Modal._counter Modal.reports] in *.
      rewrite !received_reports.
      assert (Hsentrep :
        received {| Modal._timer := t;
                    Modal._message_queue :=
                      Some (mq ++ (if ((c + 1) mod 10 =? 0)%Z
                                   then [("ping_" ++ Py.str ((c + 1) / 10))%string]
                                   else [])
                               ++ (if (c + 1 >=? 50)%Z then ["stop"] else []));
                    Modal._response_queue := Some (tl rq);
                    Modal._counter := (c + 1)%Z;
                    Modal.reports :=
                      map (fun p => ("Sent: " ++ p)%string)
                        (if ((c + 1) mod 10 =? 0)%Z
                         then [("ping_" ++ Py.str ((c + 1) / 10))%string]
                         else []) |} = []).
      { unfold received. cbn [Modal.reports].
        destruct (_ =? 0)%Z; reflexivity. }
      rewrite Hsentrep, app_nil_r.
      unfold received at 1 3. cbn [Modal.reports].
      rewrite <- !app_assoc. f_equal.
      destruct rq as [|r rq]; [reflexivity|].
      cbn -[substring String.length]. cbn [String.length Nat.sub substring String.append].
      rewrite Nat.sub_0_r, substring_all.
      replace (prefix "" r) with true by (destruct r; reflexivity).
      reflexivity.
Qed.

Lemma thread_scenario w : scenario w -> scenario (Modal.service_step w).
Proof.
  intros Hinv. pose proof Hinv as (Hw & Hc & Hh & consumed & Hsent & Hgot).
  destruct (Modal.alive w) eqn:Ea; [|rewrite modal_step_dead; auto].
  destruct (wired_queues w Hw) as (mq & rq & Hm & Hr).
  destruct mq as [|m mq]; [rewrite (modal_step_idle w Ea Hm); exact Hinv|].
  rewrite (modal_step_cmd w m mq rq Ea Hm Hr).
  unfold Modal.inq, Modal.outq in Hsent, Hgot. rewrite Hm in Hsent.
  rewrite Hr in Hgot.
  unfold scenario, Modal.wired, Modal.inq, Modal.outq.
  cbn [Modal.self Modal.handler Modal._counter Modal._message_queue
       Modal._response_queue Modal.truthy].
  split; [split; reflexivity|]. split; [exact Hc|]. split; [exact Hh|].
  exists (consumed ++ [m]). split.
  - rewrite Hsent, <- app_assoc. reflexivity.
  - rewrite flat_map_app, <- Hgot. cbn [flat_map].
    rewrite app_nil_r, <- app_assoc. reflexivity.
Qed.

Lemma drive_scenario ins : forall w,
  scenario w -> scenario (fst (Modal.drive ins w)).
Proof.
  induction ins as [|[ev|] ins IH]; intros w Hinv; cbn [Modal.drive].
  - exact Hinv.
  - pose proof (deliver_scenario ev w Hinv) as H1.
    destruct (Modal.deliver ev w) as [w1 r1]. cbn [fst] in H1.
    specialize (IH w1 H1). destruct (Modal.drive ins w1) as [w2 r2].
    exact IH.
  - apply IH. apply thread_scenario. exact Hinv.
Qed.

Lemma start_scenario : scenario Modal.start.
Proof.
  split; [split; reflexivity|]. split; [cbn; lia|]. split; [reflexivity|].
  exists []. split; reflexivity.
Qed.

Lemma commands_sent_prefix c :
  (0 <= c <= 50)%Z -> exists more, commands_sent c ++ more = commands_sent 50.
Proof.
  intros Hc. destruct (Z.eq_dec c 50) as [-> | Hn].
  - exists []. apply app_nil_r.
  - unfold commands_sent at 1. destruct (Z.leb_spec 50 c); [lia|].
    rewrite app_nil_r.
    assert (Hd : (0 <= c / 10 <= 4)%Z).
    { Z.to_euclidean_division_equations. lia. }
    set (n := Z.to_nat (c / 10)).
    exists (map (fun k => ("ping_" ++ Py.str (Z.of_nat k))%string)
              (seq (1 + n) (5 - n)) ++ ["stop"]).
    rewrite app_assoc, <- map_app, <- seq_app.
    replace (n + (5 - n)) with 5 by lia. reflexivity.
Qed.

(** The operator and its thread, end to end: however the timer ticks,
    other events and the thread's turns interleave after [execute], the
    commands the thread has consumed are a prefix of those the poll loop
    has sent by its counter, the responses the poll loop has reported
    followed by those still queued are the replies to the consumed
    commands in the same order, and so they form a prefix of
    ["pong_1"; "pong_2"; "pong_3"; "pong_4"; "pong_5"; "stopped"]. *)
Theorem operator_scenario : forall ins,
  let w := fst (Modal.drive ins Modal.start) in
  exists consumed rest,
    commands_sent (Modal._counter (Modal.self w)) = consumed ++ Modal.inq w /\
    received (Modal.self w) ++ Modal.outq w = flat_map pong_reply consumed /\
    (received (Modal.self w) ++ Modal.outq w) ++ rest =
      ["pong_1"; "pong_2"; "pong_3"; "pong_4"; "pong_5"; "stopped"].
Proof.
  intros ins w.
  destruct (drive_scenario ins Modal.start start_scenario)
    as (_ & Hc & _ & consumed & Hsent & Hgot).
  fold w in Hc, Hsent, Hgot.
  destruct (commands_sent_prefix _ Hc) as (more & Hmore).
  exists consumed, (flat_map pong_reply (Modal.inq w ++ more)).
  split; [exact Hsent|]. split; [exact Hgot|].
  rewrite Hgot, <- flat_map_app, app_assoc, <- Hsent, Hmore.
  reflexivity.
Qed.

(** ** What the prefix-matching service makes of a command *)

Lemma split_clean s sep : contains s sep = false -> Py.split s sep = [s].
Proof.
  induction s as [|c s IH]; cbn; [reflexivity|].
  destruct (Ascii.eqb c sep); [discriminate|].
  intros H. rewrite (IH H). reflexivity.
Qed.

Lemma split_cut a sep rest :
  contains a sep = false ->
  Py.split (a ++ String sep rest) sep = a :: Py.split rest sep.
Proof.
  induction a as [|c a IH]; cbn.
  - intros _. rewrite Ascii.eqb_refl. reflexivity.
  - destruct (Ascii.eqb c sep); [discriminate|].
    intros H. rewrite (IH H). reflexivity.
Qed.

Lemma prefix_app p h t :
  String.prefix p h = true -> String.prefix p (h ++ t) = true.
Proof.
  revert h. induction p as [|c p IH]; intros h;
    [intros _; destruct (h ++ t)%string; reflexivity|].
  destruct h as [|d h]; cbn; [discriminate|].
  destruct (ascii_dec c d); [apply IH | discriminate].
Qed.

Lemma pong_reply_suffix head a tail :
  Py.startswith head "ping" = true ->
  contains head "_" = false -> contains a "_" = false ->
  tail = ""%string \/ (exists b, tail = String "_" b) ->
  pong_reply (head ++ String "_" (a ++ tail)) = [("pong_" ++ a)%string].
Proof.
  intros Hp Hh Ha Ht. unfold pong_reply, Py.startswith in *.
  rewrite (prefix_app _ _ _ Hp), (split_cut head "_" _ Hh).
  destruct Ht as [-> | [b ->]].
  - replace (a ++ "")%string with a
      by (clear; induction a; cbn; congruence).
    rewrite (split_clean a "_" Ha). reflexivity.
  - rewrite (split_cut a "_" b Ha). reflexivity.
Qed.

Lemma pong_reply_clean msg :
  Py.startswith msg "ping" = true -> contains msg "_" = false ->
  pong_reply msg = [].
Proof.
  intros Hp Hc. unfold pong_reply. rewrite Hp, (split_clean msg "_" Hc).
  reflexivity.
Qed.

(** The prefix-matching service (the operator's and the CLI test's)
    answers a command of the form [head_a] or [head_a_b], where [head]
    starts with ["ping"] and neither [head] nor [a] contains an
    underscore, with ["pong_a"]: it echoes what stands between the first
    and the second underscore, drops whatever follows, and does not care
    what follows ["ping"] in [head]. *)
Theorem ping_suffix_echoed : forall head a tail,
  Py.startswith head "ping" = true ->
  contains head "_" = false -> contains a "_" = false ->
  tail = ""%string \/ (exists b, tail = String "_" b) ->
  (forall w rest rq,
      Modal.alive w = true ->
      Modal._message_queue (Modal.self w)
        = Some ((head ++ String "_" (a ++ tail))%string :: rest) ->
      Modal._response_queue (Modal.self w) = Some rq ->
      Modal.alive (Modal.service_step w) = true /\
      Modal._message_queue (Modal.self (Modal.service_step w)) = Some rest /\
      Modal._response_queue (Modal.self (Modal.service_step w))
        = Some (rq ++ [("pong_" ++ a)%string])) /\
  (forall w k rest,
      Cli.remaining w = S k ->
      Cli.message_queue (Cli.chan w)
        = (head ++ String "_" (a ++ tail))%string :: rest ->
      Cli.service_step w =
      {| Cli.chan :=
           {| Cli.message_queue := rest;
              Cli.response_queue :=
                Cli.response_queue (Cli.chan w) ++ [("pong_" ++ a)%string] |};
         Cli.remaining := k |}).
Proof.
  intros head a tail Hp Hh Ha Ht.
  pose proof (pong_reply_suffix head a tail Hp Hh Ha Ht) as Hr.
  assert (Hs : is_stop (head ++ String "_" (a ++ tail)) = false).
  { apply startswith_ping_not_stop. apply prefix_app. exact Hp. }
  split.
  - intros w rest rq Hal Hm Hq.
    rewrite (modal_step_cmd w _ rest rq Hal Hm Hq), Hr, Hs. cbn. auto.
  - intros w k rest Hk Hm.
    rewrite (cli_step_cmd w k _ rest Hk Hm), Hr, Hs. reflexivity.
Qed.

Lemma ping_suffix_echoed_witness :
  Cli.service_step (fst (Cli.run [Send "pingpong_7_8_9"; Send "stop"] Cli.fresh))
  = {| Cli.chan := {| Cli.message_queue := ["stop"];
                      Cli.response_queue := ["pong_7"] |};
       Cli.remaining := 2 |} /\
  Modal._response_queue
    (Modal.self (Modal.service_step (fst (Modal.run [Send "ping_abc"] Modal.start))))
  = Some ["pong_abc"].
Proof.
  split.
  - exact (proj2 (ping_suffix_echoed "pingpong" "7" "_8_9"
                    eq_refl eq_refl eq_refl
                    (or_intror (ex_intro _ "8_9"%string eq_refl)))
             (fst (Cli.run [Send "pingpong_7_8_9"; Send "stop"] Cli.fresh))
             2 ["stop"] eq_refl eq_refl).
  - exact (proj2 (proj2 (proj1 (ping_suffix_echoed "ping" "abc" ""
                    eq_refl eq_refl eq_refl (or_introl eq_refl))
             (fst (Modal.run [Send "ping_abc"] Modal.start))
             [] [] eq_refl eq_refl eq_refl))).
Defined.

(** Every command that starts with ["ping"] and contains no underscore,
    not only ["ping"] itself, goes unanswered in the prefix-matching
    service: it is taken off the queue, nothing is pushed, and the
    thread goes on (in the CLI test with one pass fewer). *)
Theorem ping_without_underscore_unanswered : forall msg,
  Py.startswith msg "ping" = true -> contains msg "_" = false ->
  (forall w rest rq,
      Modal.alive w = true ->
      Modal._message_queue (Modal.self w) = Some (msg :: rest) ->
      Modal._response_queue (Modal.self w) = Some rq ->
      Modal.alive (Modal.service_step w) = true /\
      Modal._message_queue (Modal.self (Modal.service_step w)) = Some rest /\
      Modal._response_queue (Modal.self (Modal.service_step w)) = Some rq) /\
  (forall w k rest,
      Cli.remaining w = S k ->
      Cli.message_queue (Cli.chan w) = msg :: rest ->
      Cli.service_step w =
      {| Cli.chan :=
           {| Cli.message_queue := rest;
              Cli.response_queue := Cli.response_queue (Cli.chan w) |};
         Cli.remaining := k |}).
Proof.
  intros msg Hp Hc.
  pose proof (pong_reply_clean msg Hp Hc) as Hr.
  pose proof (startswith_ping_not_stop msg Hp) as Hs.
  split.
  - intros w rest rq Hal Hm Hq.
    rewrite (modal_step_cmd w msg rest rq Hal Hm Hq), Hr, Hs, app_nil_r.
    cbn. auto.
  - intros w k rest Hk Hm.
    rewrite (cli_step_cmd w k msg rest Hk Hm), Hr, Hs, app_nil_r.
    reflexivity.
Qed.

Lemma ping_without_underscore_unanswered_witness :
  Cli.service_step (fst (Cli.run [Send "pingpong"] Cli.fresh))
  = {| Cli.chan := {| Cli.message_queue := []; Cli.response_queue := [] |};
       Cli.remaining := 2 |}.
Proof.
  exact (proj2 (ping_without_underscore_unanswered "pingpong" eq_refl eq_refl)
           (fst (Cli.run [Send "pingpong"] Cli.fresh)) 2 [] eq_refl eq_refl).
Defined.

(** ** The bounded service of the CLI test, and the two tests *)

Lemma cli_step_budget w :
  Cli.remaining (Cli.service_step w) <= Nat.pred (Cli.remaining w) /\
  Cli.remaining (Cli.service_step w)
    + (length (Cli.inq w) - length (Cli.inq (Cli.service_step w)))
  <= Cli.remaining w /\
  length (Cli.inq (Cli.service_step w)) <= length (Cli.inq w).
Proof.
  unfold Cli.inq. destruct (Cli.remaining w) as [|k] eqn:Ek.
  - rewrite cli_step_over by (unfold Cli.live; rewrite Ek; reflexivity).
    rewrite Ek. cbn. lia.
  - destruct (Cli.message_queue (Cli.chan w)) as [|m q] eqn:Eq.
    + rewrite (cli_step_idle w k Ek Eq). cbn. rewrite Eq. cbn. lia.
    + rewrite (cli_step_cmd w k m q Ek Eq).
      cbn [Cli.remaining Cli.chan Cli.message_queue length Nat.pred].
      destruct (is_stop m); lia.
Qed.

Lemma turns_cons a sched :
  turns (a :: sched) =
  (match a with Service => 1 | _ => 0 end) + turns sched.
Proof. unfold turns. destruct a; reflexivity. Qed.

Lemma cli_budget sched : forall w n,
  n + Cli.remaining w <= 3 + length (Cli.inq w) ->
  let w' := fst (Cli.run sched w) in
  n + length (sends sched) + Cli.remaining w' <= 3 + length (Cli.inq w') /\
  Cli.remaining w' <= Cli.remaining w - turns sched.
Proof.
  unfold Cli.run.
  induction sched as [|a sched IH]; intros w n H; cbv zeta.
  - cbn. lia.
  - cbn [exec]. rewrite sends_cons, turns_cons, length_app.
    destruct a as [msg | | ]; cbn [step sends flat_map length app].
    + specialize (IH (Cli.host_send msg w) (S n)).
      cbv zeta in IH.
      destruct (exec _ _ _ sched (Cli.host_send msg w)) as [w2 o2].
      cbn [fst] in *.
      assert (Hl : length (Cli.inq (Cli.host_send msg w))
                   = S (length (Cli.inq w))).
      { unfold Cli.inq. cbn. rewrite length_app. cbn. lia. }
      change (Cli.remaining (Cli.host_send msg w)) with (Cli.remaining w) in IH.
      rewrite Hl in IH. specialize (IH ltac:(lia)). lia.
    + destruct (cli_take_spec w I) as (_ & Hin & Hlive & _).
      destruct (Cli.host_try_recv w) as [r w1] eqn:E1. cbn [fst snd] in *.
      assert (Hr : Cli.remaining w1 = Cli.remaining w).
      { unfold Cli.host_try_recv, Cli.response_queue_get_nowait in E1.
        py_unfold. destruct (Cli.response_queue (Cli.chan w));
          inversion E1; reflexivity. }
      specialize (IH w1 n). cbv zeta in IH. rewrite Hin, Hr in IH.
      specialize (IH H).
      destruct (exec _ _ _ sched w1) as [w2 o2]. cbn [fst] in *. lia.
    + pose proof (cli_step_budget w) as (Hb1 & Hb2 & Hb3).
      specialize (IH (Cli.service_step w) n ltac:(lia)). cbv zeta in IH.
      destruct (exec _ _ _ sched (Cli.service_step w)) as [w2 o2].
      cbn [fst] in *. lia.
Qed.

Lemma pong_reply_short l : length (flat_map pong_reply l) <= length l.
Proof.
  induction l as [|m l IH]; cbn [flat_map length]; [lia|].
  rewrite length_app.
  assert (length (pong_reply m) <= 1).
  { unfold pong_reply. destruct (Py.startswith m "ping").
    - destruct (nth_error _ 1); cbn; lia.
    - destruct (m =? "stop")%string; cbn; lia. }
  lia.
Qed.

(** The service of the CLI test is bounded by its [range(3)]: in every
    run from a fresh start it has consumed at most three commands (a
    prefix of those sent), produced at most as many responses, and every
    turn of the thread, a timeout included, uses up one of the three
    passes: after three turns the thread is over whatever is sent. *)
Theorem cli_service_bounded : forall sched,
  let w := fst (Cli.run sched Cli.fresh) in
  let got := somes (snd (Cli.run sched Cli.fresh)) in
  (exists consumed,
      sends sched = consumed ++ Cli.message_queue (Cli.chan w) /\
      length consumed + Cli.remaining w <= 3 /\
      length (got ++ Cli.response_queue (Cli.chan w)) <= length consumed) /\
  Cli.remaining w <= 3 - turns sched.
Proof.
  intros sched w got.
  destruct (cli_runs sched) as (consumed & Hs & Hg).
  destruct (cli_budget sched Cli.fresh 0 ltac:(cbn; lia)) as [Hb Ht].
  fold w in Hs, Hg, Hb, Ht. fold got in Hg.
  split; [|exact Ht].
  exists consumed. split; [exact Hs|]. split.
  - rewrite Hs, length_app in Hb. unfold Cli.inq in Hb. cbn in Hb. lia.
  - unfold Cli.outq in Hg. rewrite Hg. apply pong_reply_short.
Qed.

Lemma sends_app s1 s2 : sends (s1 ++ s2) = sends s1 ++ sends s2.
Proof. unfold sends. apply flat_map_app. Qed.

(** A pass of [range(3)] spent on a timeout is lost for good: if the
    thread takes a turn before any command has been sent, then, however
    the sends, the polls and the thread's turns interleave afterwards,
    at most two commands are ever consumed and at most two responses
    ever produced.  The three responses the CLI test expects can then
    not be collected, and of its three commands ["stop"] is never
    answered. *)
Theorem cli_timeout_loses_a_pass : forall pre rest,
  sends pre = [] ->
  let sched := pre ++ Service :: rest in
  let w := fst (Cli.run sched Cli.fresh) in
  let got := somes (snd (Cli.run sched Cli.fresh)) in
  (exists consumed,
      sends sched = consumed ++ Cli.message_queue (Cli.chan w) /\
      length consumed <= 2 /\
      got ++ Cli.response_queue (Cli.chan w) = flat_map pong_reply consumed) /\
  length (got ++ Cli.response_queue (Cli.chan w)) <= 2 /\
  got <> ["pong_1"; "pong_2"; "stopped"] /\
  (sends sched = ["ping_1"; "ping_2"; "stop"] ->
   ~ In "stopped" (got ++ Cli.response_queue (Cli.chan w))).
Proof.
  intros pre rest Hpre. cbv zeta.
  destruct (cli_runs (pre ++ Service :: rest)) as (consumed & Hs & Hg).
  cbv zeta in Hs, Hg. unfold Cli.inq, Cli.outq in Hs, Hg.
  assert (Hlen : length consumed <= 2).
  { destruct (cli_runs pre) as (c1 & Hs1 & _). rewrite Hpre in Hs1.
    symmetry in Hs1. apply app_eq_nil in Hs1. destruct Hs1 as [_ Hin1].
    destruct (cli_budget pre Cli.fresh 0 ltac:(cbn; lia)) as [_ Hr1].
    cbn [Cli.fresh Cli.remaining] in Hr1.
    set (w1 := fst (Cli.run pre Cli.fresh)) in *.
    pose proof (cli_step_budget w1) as (Hb1 & _ & Hb3).
    rewrite Hin1 in Hb3. cbn [length] in Hb3.
    destruct (cli_budget rest (Cli.service_step w1) 1 ltac:(lia)) as [Hb _].
    assert (Hw : fst (Cli.run (pre ++ Service :: rest) Cli.fresh)
                 = fst (Cli.run rest (Cli.service_step w1))).
    { unfold w1, Cli.run. rewrite exec_app. cbn [fst exec step].
      destruct (exec Cli.host_send Cli.host_try_recv Cli.service_step rest
                  (Cli.service_step
                     (fst (exec Cli.host_send Cli.host_try_recv
                             Cli.service_step pre Cli.fresh)))).
      reflexivity. }
    rewrite <- Hw in Hb. unfold Cli.inq in Hb.
    rewrite sends_app, Hpre in Hs. cbn [app] in Hs.
    change (sends (Service :: rest)) with (sends rest) in Hs.
    rewrite Hs, length_app in Hb. lia. }
  assert (Hshort : length (somes (snd (Cli.run (pre ++ Service :: rest)
                                           Cli.fresh))
                           ++ Cli.response_queue
                                (Cli.chan (fst (Cli.run (pre ++ Service :: rest)
                                                  Cli.fresh)))) <= 2).
  { rewrite Hg. pose proof (pong_reply_short consumed). lia. }
  split; [exists consumed; auto|]. split; [exact Hshort|]. split.
  - intros Heq. rewrite Heq, length_app in Hshort. cbn in Hshort. lia.
  - intros Hsent. rewrite Hg. rewrite Hsent in Hs.
    destruct consumed as [|a [|b [|c l]]]; cbn [length] in Hlen; try lia;
      cbn [app] in Hs; inversion Hs; subst; cbn; intuition discriminate.
Qed.

Lemma cli_timeout_loses_a_pass_witness :
  ~ In "stopped"
      (somes (snd (Cli.run ([TryRecv] ++ Service ::
                              [Send "ping_1"; Send "ping_2"; Send "stop";
                               Service; Service; Service;
                               TryRecv; TryRecv; TryRecv]) Cli.fresh))
       ++ Cli.response_queue
            (Cli.chan
               (fst (Cli.run ([TryRecv] ++ Service ::
                                [Send "ping_1"; Send "ping_2"; Send "stop";
                                 Service; Service; Service;
                                 TryRecv; TryRecv; TryRecv]) Cli.fresh)))).
Proof.
  exact (proj2 (proj2 (proj2
           (cli_timeout_loses_a_pass [TryRecv]
              [Send "ping_1"; Send "ping_2"; Send "stop";
               Service; Service; Service; TryRecv; TryRecv; TryRecv]
              eq_refl))) eq_refl).
Defined.

(** The outcome of [test_simulated_bridge] depends only on whether the
    thread gets a turn during each of the two sleeps, not on how often it
    timed out before: with no turn during the first sleep the test
    raises "Expected 'pong', got 'None'", with a turn there but none
    during the second it raises "Expected 'stopped', got 'None'", and
    otherwise it passes. *)
Theorem bridge_test_outcome : forall k0 k1 k2,
  Bridge.test_simulated_bridge k0 k1 k2 =
  match k1, k2 with
  | O, _ => inl "Expected 'pong', got 'None'"%string
  | S _, O => inl "Expected 'stopped', got 'None'"%string
  | S _, S _ => inr tt
  end.
Proof.
  intros k0 k1 k2. unfold Bridge.test_simulated_bridge.
  rewrite (bridge_services_idle k0 Bridge.fresh eq_refl eq_refl).
  cbn [fst]. destruct k1 as [|k1]; [reflexivity|].
  rewrite bridge_services_one with (m := "ping") by reflexivity.
  cbn -[Bridge.run repeat]. destruct k2 as [|k2]; [reflexivity|].
  rewrite bridge_services_one with (m := "stop") by reflexivity.
  reflexivity.
Qed.

(** Polling [n] times in a row hands the host the [n] oldest responses
    in the order they were queued and then [None] for every further
    poll; the command queue and the thread are not touched. *)
Theorem polls_drain_in_order : forall n w,
  Bridge.run (repeat TryRecv n) w =
  ({| Bridge.chan :=
        {| Bridge.to_service := Bridge.to_service (Bridge.chan w);
           Bridge.from_service := skipn n (Bridge.from_service (Bridge.chan w)) |};
      Bridge.alive := Bridge.alive w |},
   map Some (firstn n (Bridge.from_service (Bridge.chan w)))
     ++ repeat None (n - length (Bridge.from_service (Bridge.chan w)))).
Proof.
  unfold Bridge.run.
  induction n as [|n IH]; intros [[ts fs] a].
  - reflexivity.
  - cbn [repeat exec step].
    destruct fs as [|r fs].
    + change (Bridge.host_try_recv
                {| Bridge.chan := {| Bridge.to_service := ts;
                                     Bridge.from_service := [] |};
                   Bridge.alive := a |})
        with (@None string,
              {| Bridge.chan := {| Bridge.to_service := ts;
                                   Bridge.from_service := [] |};
                 Bridge.alive := a |}).
      cbv beta iota. rewrite IH. cbn. rewrite Nat.sub_0_r.
      destruct n; reflexivity.
    + change (Bridge.host_try_recv
                {| Bridge.chan := {| Bridge.to_service := ts;
                                     Bridge.from_service := r :: fs |};
                   Bridge.alive := a |})
        with (Some r,
              {| Bridge.chan := {| Bridge.to_service := ts;
                                   Bridge.from_service := fs |};
                 Bridge.alive := a |}).
      cbv beta iota. rewrite IH. reflexivity.
Qed.

(** ** The [sys.path] prologues *)

Lemma mem_In p path : SysPath.mem p path = true <-> In p path.
Proof.
  unfold SysPath.mem. rewrite existsb_exists. split.
  - intros (x & Hin & He). apply String.eqb_eq in He. subst. exact Hin.
  - intros Hin. exists p. split; [exact Hin | apply String.eqb_refl].
Qed.

Lemma mem_false p path : SysPath.mem p path = false <-> ~ In p path.
Proof.
  rewrite <- mem_In. destruct (SysPath.mem p path); split; intros H;
    try discriminate; try reflexivity; try (intros H'; discriminate).
  exfalso. apply H. reflexivity.
Qed.

(** The addon's prologue puts its directory on [sys.path] once: the
    directory is on the path afterwards, the entries that were there
    keep their places in front of it, running the prologue again changes
    nothing, and a path free of duplicates stays so. *)
Theorem addon_prologue_idempotent : forall addon_dir path,
  In addon_dir (SysPath.addon_prologue addon_dir path) /\
  (exists extra, SysPath.addon_prologue addon_dir path = path ++ extra) /\
  SysPath.addon_prologue addon_dir (SysPath.addon_prologue addon_dir path)
    = SysPath.addon_prologue addon_dir path /\
  (NoDup path -> NoDup (SysPath.addon_prologue addon_dir path)).
Proof.
  intros d path. unfold SysPath.addon_prologue.
  destruct (SysPath.mem d path) eqn:E; cbn [negb].
  - rewrite E. cbn [negb]. apply mem_In in E.
    repeat split; auto. exists []. symmetry. apply app_nil_r.
  - assert (E' : SysPath.mem d (path ++ [d]) = true).
    { apply mem_In. apply in_or_app. right. left. reflexivity. }
    rewrite E'. cbn [negb]. apply mem_false in E. repeat split.
    + apply in_or_app. right. left. reflexivity.
    + exists [d]. reflexivity.
    + intros Hn. apply NoDup_app; [exact Hn | repeat constructor; intros []|].
      intros x Hx [<- | []]. exact (E Hx).
Qed.

Lemma addon_prologue_idempotent_witness :
  NoDup (SysPath.addon_prologue "/addons/cuttle" ["/usr/lib/python"; "/site"]).
Proof.
  apply (proj2 (proj2 (proj2
           (addon_prologue_idempotent "/addons/cuttle"
              ["/usr/lib/python"; "/site"])))).
  repeat constructor; cbn; intuition discriminate.
Defined.

(** The CLI script's prologue puts the addon directory and the script
    directory in front of [sys.path], each unless it is already there:
    both are on the path afterwards, the old entries follow in their
    order, running the prologue again changes nothing, a path free of
    duplicates stays so, and the addon's own prologue, run at import
    for the same directory, then finds nothing to add. *)
Theorem cli_prologue_idempotent : forall script_dir addon_dir path,
  let path' := SysPath.cli_prologue script_dir addon_dir path in
  In script_dir path' /\ In addon_dir path' /\
  (exists extra, path' = extra ++ path) /\
  SysPath.cli_prologue script_dir addon_dir path' = path' /\
  SysPath.addon_prologue addon_dir path' = path' /\
  (NoDup path -> NoDup path').
Proof.
  intros s a path. cbv zeta. unfold SysPath.cli_prologue.
  set (p1 := if negb (SysPath.mem a path) then a :: path else path).
  assert (Ha1 : In a p1).
  { unfold p1. destruct (SysPath.mem a path) eqn:E; cbn [negb].
    - apply mem_In. exact E.
    - left. reflexivity. }
  assert (He1 : exists extra, p1 = extra ++ path).
  { unfold p1. destruct (SysPath.mem a path); cbn [negb];
      [exists [] | exists [a]]; reflexivity. }
  assert (Hn1 : NoDup path -> NoDup p1).
  { unfold p1. destruct (SysPath.mem a path) eqn:E; cbn [negb]; [auto|].
    intros Hn. constructor; [apply mem_false; exact E | exact Hn]. }
  set (p2 := if negb (SysPath.mem s p1) then s :: p1 else p1).
  assert (Hs2 : In s p2).
  { unfold p2. destruct (SysPath.mem s p1) eqn:E; cbn [negb].
    - apply mem_In. exact E.
    - left. reflexivity. }
  assert (Ha2 : In a p2).
  { unfold p2. destruct (SysPath.mem s p1); cbn [negb]; [exact Ha1|].
    right. exact Ha1. }
  assert (Hma : SysPath.mem a p2 = true) by (apply mem_In; exact Ha2).
  assert (Hms : SysPath.mem s p2 = true) by (apply mem_In; exact Hs2).
  split; [exact Hs2|]. split; [exact Ha2|]. split; [|split; [|split]].
  - destruct He1 as [e1 He1]. unfold p2.
    destruct (SysPath.mem s p1); cbn [negb].
    + exists e1. exact He1.
    + exists (s :: e1). rewrite He1. reflexivity.
  - rewrite Hma. cbn [negb]. rewrite Hms. reflexivity.
  - unfold SysPath.addon_prologue. rewrite Hma. reflexivity.
  - intros Hn. specialize (Hn1 Hn). unfold p2.
    destruct (SysPath.mem s p1) eqn:E; cbn [negb]; [exact Hn1|].
    constructor; [apply mem_false; exact E | exact Hn1].
Qed.

Lemma cli_prologue_idempotent_witness :
  NoDup (SysPath.cli_prologue "/repo" "/repo/blender_test_addon"
           ["/usr/lib/python"; "/repo"]).
Proof.
  apply (proj2 (proj2 (proj2 (proj2 (proj2
           (cli_prologue_idempotent "/repo" "/repo/blender_test_addon"
              ["/usr/lib/python"; "/repo"])))))).
  repeat constructor; cbn; intuition discriminate.
Defined.

(** ** The architecture operator *)

(** [CUTTLE_OT_test_architecture.execute] returns [FINISHED] exactly
    when [cargo test] ran and exited with 0, the bridge's thread got a
    turn during each sleep of the bridge test, and the logging test did
    not raise; in every other case it returns [CANCELLED].  It reports
    no error when it finishes, and exactly one when it is cancelled: its
    last report, for the first test that failed. *)
Theorem architecture_execute_result : forall run k0 k1 k2 logging,
  let st := fst (Architecture.execute run k0 k1 k2 logging) in
  let reports := snd (Architecture.execute run k0 k1 k2 logging) in
  (st = Modal.FINISHED <->
   (exists result, run = inr result /\ Architecture.returncode result = 0%Z) /\
   1 <= k1 /\ 1 <= k2 /\ logging = inr tt) /\
  (st = Modal.FINISHED \/ st = Modal.CANCELLED) /\
  length (filter Architecture.is_error reports)
    = match st with Modal.FINISHED => 0 | _ => 1 end /\
  (st = Modal.CANCELLED ->
   exists infos text, reports = infos ++ [(Architecture.ERROR, text)]).
Proof.
  intros run k0 k1 k2 logging. cbv zeta.
  unfold Architecture.execute, Architecture.test_rust_core.
  assert (Hlast : forall (infos : list (Architecture.level * string)) text,
             exists infos' text',
               infos ++ [(Architecture.ERROR, text)]
               = infos' ++ [(Architecture.ERROR, text')]).
  { intros infos text. exists infos, text. reflexivity. }
  destruct run as [e | [rc out err]];
    cbn [Architecture.returncode Architecture.stderr].
  - cbn [fst snd]. split; [|split; [|split]].
    + split; [discriminate|]. intros ([r [H _]] & _). discriminate.
    + right. reflexivity.
    + reflexivity.
    + intros _. apply Hlast.
  - destruct (Z.eqb_spec rc 0) as [-> | Hrc]; cbn [negb].
    + rewrite bridge_test_outcome.
      destruct k1 as [|k1]; [|destruct k2 as [|k2]];
        [| |destruct logging as [e | []]]; cbn [fst snd];
        (split; [|split; [|split]];
         [ split; [try discriminate | try (intros (_ & H1 & H2 & H3);
                                           first [lia | discriminate])]
         | auto
         | reflexivity
         | try discriminate; try (intros _; apply Hlast) ]).
      * intros _. repeat split; try lia. eexists. split; reflexivity.
      * intros _. reflexivity.
    + cbn [fst snd]. split; [|split; [|split]].
      * split; [discriminate|]. intros ([r [H H']] & _).
        inversion H; subst. cbn in H'. contradiction.
      * right. reflexivity.
      * reflexivity.
      * intros _. apply Hlast.
Qed.

(** ** Progress of the two [while True] services *)

Lemma bridge_drain_calm cmds : forall w k,
  Bridge.alive w = true -> Bridge.to_service (Bridge.chan w) = cmds ->
  ~ In "stop" cmds ->
  Bridge.run (repeat Service (length cmds + k)) w =
  ({| Bridge.chan :=
        {| Bridge.to_service := [];
           Bridge.from_service :=
             Bridge.from_service (Bridge.chan w) ++ map Bridge.reply cmds |};
      Bridge.alive := true |}, []).
Proof.
  induction cmds as [|m cmds IH]; intros w k Ha Hq Hn.
  - cbn [length Nat.add map]. rewrite (bridge_services_idle k w Ha Hq).
    destruct w as [[ts fs] a]. cbn in *. subst. rewrite app_nil_r.
    reflexivity.
  - cbn [length Nat.add repeat]. unfold Bridge.run. cbn [exec step].
    rewrite (bridge_step_cmd w m cmds Ha Hq).
    assert (Hs : is_stop m = false).
    { destruct (is_stop m) eqn:E; [|reflexivity].
      apply is_stop_true in E. subst. exfalso. apply Hn. left. reflexivity. }
    rewrite Hs. cbn [negb]. fold Bridge.run.
    rewrite IH by (try reflexivity; intros H; apply Hn; right; exact H).
    cbn [Bridge.chan Bridge.from_service map app].
    rewrite <- app_assoc. reflexivity.
Qed.

(** Given enough turns and no further sends, the exact-match service
    answers everything that is queued, in order, up to and including the
    first ["stop"]: with no ["stop"] queued, as many turns as there are
    commands empty the queue and the thread lives on; with a ["stop"]
    queued, one turn per command up to it answers them all and ends
    the thread, leaving what follows the ["stop"] in the queue.  Further
    turns change nothing. *)
Theorem bridge_service_drains :
  (forall w cmds k,
      Bridge.alive w = true -> Bridge.to_service (Bridge.chan w) = cmds ->
      ~ In "stop" cmds ->
      Bridge.run (repeat Service (length cmds + k)) w =
      ({| Bridge.chan :=
            {| Bridge.to_service := [];
               Bridge.from_service :=
                 Bridge.from_service (Bridge.chan w) ++ map Bridge.reply cmds |};
          Bridge.alive := true |}, [])) /\
  (forall w pre post k,
      Bridge.alive w = true ->
      Bridge.to_service (Bridge.chan w) = pre ++ "stop" :: post ->
      ~ In "stop" pre ->
      Bridge.run (repeat Service (length pre + 1 + k)) w =
      ({| Bridge.chan :=
            {| Bridge.to_service := post;
               Bridge.from_service :=
                 Bridge.from_service (Bridge.chan w)
                   ++ map Bridge.reply pre ++ ["stopped"] |};
          Bridge.alive := false |}, [])).
Proof.
  split.
  - intros w cmds k. apply bridge_drain_calm.
  - intros w pre. revert w.
    induction pre as [|m pre IH]; intros w post k Ha Hq Hn.
    + cbn [length Nat.add repeat app map] in *. unfold Bridge.run.
      cbn [exec step]. rewrite (bridge_step_cmd w "stop" post Ha Hq).
      cbn [is_stop negb].
      rewrite (exec_services_dead _ _ _ Bridge.alive bridge_step_dead);
        reflexivity.
    + cbn [length Nat.add repeat app map] in *. unfold Bridge.run.
      cbn [exec step].
      rewrite (bridge_step_cmd w m (pre ++ "stop" :: post) Ha Hq).
      assert (Hs : is_stop m = false).
      { destruct (is_stop m) eqn:E; [|reflexivity].
        apply is_stop_true in E. subst. exfalso. apply Hn. left.
        reflexivity. }
      rewrite Hs. cbn [negb]. fold Bridge.run.
      rewrite IH with (post := post)
        by (try reflexivity; intros H; apply Hn; right; exact H).
      cbn [Bridge.chan Bridge.from_service].
      rewrite <- app_assoc. reflexivity.
Qed.

Lemma bridge_service_drains_witness :
  Bridge.run (repeat Service 5)
    (fst (Bridge.run [Send "ping"; Send "xyz"; Send "stop"; Send "ping"]
            Bridge.fresh))
  = ({| Bridge.chan :=
          {| Bridge.to_service := ["ping"];
             Bridge.from_service := ["pong"; "unknown: xyz"; "stopped"] |};
        Bridge.alive := false |}, []).
Proof.
  apply (proj2 bridge_service_drains
           (fst (Bridge.run [Send "ping"; Send "xyz"; Send "stop"; Send "ping"]
                   Bridge.fresh))
           ["ping"; "xyz"] ["ping"] 2 eq_refl eq_refl).
  cbn. intuition discriminate.
Defined.

Lemma modal_services_idle k : forall w,
  Modal.alive w = true -> Modal._message_queue (Modal.self w) = Some [] ->
  Modal.run (repeat Service k) w = (w, []).
Proof.
  unfold Modal.run.
  induction k as [|k IH]; intros w Ha Hq; cbn; [reflexivity|].
  rewrite (modal_step_idle w Ha Hq), (IH w Ha Hq). reflexivity.
Qed.

(** The same progress for the operator's service, with its own replies
    (none for a command it does not answer): given enough turns and no
    further sends it consumes everything queued up to and including the
    first ["stop"], pushing the replies in order. *)
Theorem modal_service_drains :
  (forall cmds w rq k,
      Modal.alive w = true ->
      Modal._message_queue (Modal.self w) = Some cmds ->
      Modal._response_queue (Modal.self w) = Some rq ->
      ~ In "stop" cmds ->
      let w' := fst (Modal.run (repeat Service (length cmds + k)) w) in
      Modal.alive w' = true /\
      Modal._message_queue (Modal.self w') = Some [] /\
      Modal._response_queue (Modal.self w')
        = Some (rq ++ flat_map pong_reply cmds)) /\
  (forall pre w rq post k,
      Modal.alive w = true ->
      Modal._message_queue (Modal.self w) = Some (pre ++ "stop" :: post) ->
      Modal._response_queue (Modal.self w) = Some rq ->
      ~ In "stop" pre ->
      let w' := fst (Modal.run (repeat Service (length pre + 1 + k)) w) in
      Modal.alive w' = false /\
      Modal._message_queue (Modal.self w') = Some post /\
      Modal._response_queue (Modal.self w')
        = Some (rq ++ flat_map pong_reply pre ++ ["stopped"])).
Proof.
  split.
  - induction cmds as [|m cmds IH]; intros w rq k Ha Hm Hr Hn; cbv zeta.
    + cbn [length Nat.add flat_map]. rewrite (modal_services_idle k w Ha Hm).
      cbn [fst]. rewrite app_nil_r. auto.
    + cbn [length Nat.add repeat]. unfold Modal.run. cbn [exec step].
      fold Modal.run.
      assert (Hs : is_stop m = false).
      { destruct (is_stop m) eqn:E; [|reflexivity].
        apply is_stop_true in E. subst. exfalso. apply Hn. left.
        reflexivity. }
      pose proof (modal_step_cmd w m cmds rq Ha Hm Hr) as Hstep.
      rewrite Hs in Hstep. cbn [negb] in Hstep.
      assert (Hn' : ~ In "stop" cmds) by (intros H; apply Hn; right; exact H).
      specialize (IH (Modal.service_step w) (rq ++ pong_reply m) k).
      rewrite Hstep in IH. specialize (IH eq_refl eq_refl eq_refl Hn').
      cbv zeta in IH. rewrite <- Hstep in IH.
      destruct (Modal.run (repeat Service (length cmds + k))
                  (Modal.service_step w)) as [w2 o2].
      cbn [fst flat_map] in *. rewrite app_assoc. exact IH.
  - induction pre as [|m pre IH]; intros w rq post k Ha Hm Hr Hn; cbv zeta.
    + cbn [length Nat.add repeat app flat_map] in *. unfold Modal.run.
      cbn [exec step].
      rewrite (exec_services_dead _ _ _ Modal.alive modal_step_dead);
        rewrite (modal_step_cmd w "stop" post rq Ha Hm Hr); cbn; auto.
    + cbn [length Nat.add repeat app] in *. unfold Modal.run.
      cbn [exec step]. fold Modal.run.
      assert (Hs : is_stop m = false).
      { destruct (is_stop m) eqn:E; [|reflexivity].
        apply is_stop_true in E. subst. exfalso. apply Hn. left.
        reflexivity. }
      pose proof (modal_step_cmd w m (pre ++ "stop" :: post) rq Ha Hm Hr)
        as Hstep.
      rewrite Hs in Hstep. cbn [negb] in Hstep.
      assert (Hn' : ~ In "stop" pre) by (intros H; apply Hn; right; exact H).
      specialize (IH (Modal.service_step w) (rq ++ pong_reply m) post k).
      rewrite Hstep in IH. specialize (IH eq_refl eq_refl eq_refl Hn').
      cbv zeta in IH. rewrite <- Hstep in IH.
      destruct (Modal.run (repeat Service (length pre + 1 + k))
                  (Modal.service_step w)) as [w2 o2].
      cbn [fst flat_map] in *. rewrite <- !app_assoc in *. exact IH.
Qed.

Lemma modal_service_drains_witness :
  Modal._response_queue
    (Modal.self
       (fst (Modal.run (repeat Service 4)
               (fst (Modal.run [Send "ping_1"; Send "xyz"; Send "stop";
                                Send "ping_2"] Modal.start)))))
  = Some ["pong_1"; "stopped"].
Proof.
  exact (proj2 (proj2 (proj2 modal_service_drains
           ["ping_1"; "xyz"]
           (fst (Modal.run [Send "ping_1"; Send "xyz"; Send "stop";
                            Send "ping_2"] Modal.start))
           [] ["ping_2"] 1 eq_refl eq_refl eq_refl
           ltac:(cbn; intuition discriminate)))).
Defined.
